(** * badgerds-upgrade: a shallow embedding of [upgrade/upgrade.go]

    The Go package migrates the badger datastores of a repository from the
    badger 0.8 on-disk format to the badger 1.0 one.  This file embeds the
    package function by function and proves the properties its
    specification states about it.

    Conventions.
    - A Go [error] is a value of [error]; [None : option error] is [nil].
    - A Go function returning [(T, error)] returns a pair here, with the
      zero value of [T] where Go returns [nil].
    - [[]byte] and [string] are both [string], a sequence of bytes taken
      as a value: the bytes the program reads.  What the memory a [[]byte]
      shares with the badger 0.8 adapter does to what it hands over is
      looked at on its own, in [Sharing].
    - Calls to [Log.Printf] only write diagnostics and are left out. *)

From stdpp Require Import gmap strings list fin_maps pretty.

Open Scope string_scope.
Open Scope list_scope.
Set Warnings "-register-all,-clear-no-such-hyp".

(** ** Errors *)

(** The package owns two error values, compared by identity
    ([err != ErrInvalidVersion], [err == ErrCancelled]).  Every other error
    (made by [errors.New], by [fmt.Errorf], or coming out of the operating
    system, the standard library or badger) is a different value, of which
    only the text matters here. *)
Inductive error :=
| ErrInvalidVersion
| ErrCancelled
| OtherError (msg : string).

#[global] Instance error_eq_dec : EqDecision error.
Proof. solve_decision. Defined.

(** [err.Error()] *)
Definition Error (e : error) : string :=
  match e with
  | ErrInvalidVersion => "unsupported badger version"
  | ErrCancelled => "context cancelled"
  | OtherError msg => msg
  end.

Definition errors_New (msg : string) : error := OtherError msg.

(** ** The spec document *)

(** What [json.Unmarshal] builds when it decodes into
    [map[string]interface{}]: [nil], [bool], [float64] (kept as its bit
    pattern, the program never looks at numbers), [string],
    [[]interface{}] and [map[string]interface{}].  A map is the list of its
    bindings; [index] reads the first binding of a key, so every Go map is
    represented, and lists with a repeated key stand for the map of their
    first bindings. *)
Inductive json :=
| JNull
| JBool (b : bool)
| JNum (bits : Z)
| JStr (s : string)
| JArr (elems : list json)
| JObj (fields : obj)
with obj :=
| ONil
| OCons (k : string) (v : json) (rest : obj).

(** [spec[k]]: [None] is the nil interface Go gives for an absent key. *)
Fixpoint index (spec : obj) (k : string) : option json :=
  match spec with
  | ONil => None
  | OCons k' v rest => if String.eqb k' k then Some v else index rest k
  end.

(** [index] with the rest of the computation passed in, so that the values
    found stay visibly inside [spec] for the recursion of [parseSpecs];
    [with_index_eq] below says it is [cont (index spec k)]. *)
Definition with_index {A} (spec : obj) (k : string) (cont : option json → A) : A :=
  (fix look (m : obj) : A :=
     match m with
     | ONil => cont None
     | OCons k' v rest => if String.eqb k' k then cont (Some v) else look rest
     end) spec.

(** [parseSpecs], lines 244-293.  The type assertions [x.(string)],
    [x.([]interface{})] and [x.(map[string]interface{})] are the matches on
    [Some (JStr _)], [Some (JArr _)] and [Some (JObj _)]. *)
Fixpoint parseSpecs (spec : obj) : list string * option error :=
  with_index spec "type" (λ ty,
    match ty with
    | Some (JStr t) =>
        if String.eqb t "mount" then
          with_index spec "mounts" (λ ms,
            match ms with
            | Some (JArr mounts) =>
                (fix range (ms : list json) (out : list string)
                   : list string * option error :=
                   match ms with
                   | [] => (out, None)
                   | m :: ms' =>
                       match m with
                       | JObj mount =>
                           match parseSpecs mount with
                           | (_, Some err) => ([], Some err)
                           | (paths, None) => range ms' (out ++ paths)
                           end
                       | _ => ([], Some (errors_New "unexpected mount type"))
                       end
                   end) mounts []
            | _ => ([], Some (errors_New "unexpected mounts type"))
            end)
        else if String.eqb t "measure" then
          with_index spec "child" (λ c,
            match c with
            | Some (JObj child) => parseSpecs child
            | _ => ([], Some (errors_New "unexpected child type"))
            end)
        else if String.eqb t "badgerds" then
          match index spec "path" with
          | Some (JStr path) => ([path], None)
          | _ => ([], Some (errors_New "unexpected path type"))
          end
        else if String.eqb t "flatfs" || String.eqb t "levelds" then
          ([], None)
        else
          ([], Some (errors_New "unexpected ds type"))
    | _ => ([], Some (errors_New "unexpected spec type"))
    end).

(** The loop of the ["mount"] case on its own: [out] is the slice built so
    far, [ms] what is left of [mounts]. *)
Fixpoint range_mounts (ms : list json) (out : list string)
  : list string * option error :=
  match ms with
  | [] => (out, None)
  | m :: ms' =>
      match m with
      | JObj mount =>
          match parseSpecs mount with
          | (_, Some err) => ([], Some err)
          | (paths, None) => range_mounts ms' (out ++ paths)
          end
      | _ => ([], Some (errors_New "unexpected mount type"))
      end
  end.

(** The body of [parseSpecs] as the source has it, one lookup after the
    other; [parseSpecs_eq] proves [parseSpecs] equal to it. *)
Definition parseSpecs_body (spec : obj) : list string * option error :=
  match index spec "type" with
  | Some (JStr t) =>
      if String.eqb t "mount" then
        match index spec "mounts" with
        | Some (JArr mounts) => range_mounts mounts []
        | _ => ([], Some (errors_New "unexpected mounts type"))
        end
      else if String.eqb t "measure" then
        match index spec "child" with
        | Some (JObj child) => parseSpecs child
        | _ => ([], Some (errors_New "unexpected child type"))
        end
      else if String.eqb t "badgerds" then
        match index spec "path" with
        | Some (JStr path) => ([path], None)
        | _ => ([], Some (errors_New "unexpected path type"))
        end
      else if String.eqb t "flatfs" || String.eqb t "levelds" then
        ([], None)
      else
        ([], Some (errors_New "unexpected ds type"))
  | _ => ([], Some (errors_New "unexpected spec type"))
  end.

(** ** What the program does not define *)

(** The functions of Go's standard library that the package calls and that
    do not touch the file system.  They are taken as they come: the
    theorems hold for every implementation.  Their errors are not values of
    this package, so they are given by their text. *)
Class GoLib := {
  filepath_Join : string → string → string;
  path_Join : string → string → string;
  strings_TrimSpace : string → string;
  strconv_Atoi : string → Z * option string;
  json_Unmarshal : string → obj * option string;
}.

(** [strings.HasPrefix(s, prefix)] *)
Definition strings_HasPrefix (s prefix : string) : bool := String.prefix prefix s.

(** [fmt.Errorf("unsupported fsrepo version: %d", version)] *)
Definition fmt_Errorf_version (version : Z) : error :=
  OtherError ("unsupported fsrepo version: " ++ pretty version)%string.

Definition LockFile := "repo.lock".
Definition ConfigFile := "config".
Definition SpecsFile := "datastore_spec".
Definition SuppertedRepoVersion : Z := 6.

(** ** The world: file system, context, oracles *)

(** What a name of the file system holds.  Names are whole paths, and a
    directory is one entry: the files inside it are not looked at.  A
    badger directory is taken by what its store contains: the pairs of a
    0.8 store in the order its iterator yields them, the map of a 1.0
    store; [BadgerOther] is a badger directory of another version.  Only
    the program changes the file system (the repository is used by one
    process during the run). *)
Inductive dirent :=
| File (data : string)
| EmptyDir
| Badger08 (items : list (string * string))
| Badger10 (kvs : gmap string string)
| BadgerOther.

(** The calls that leave the program, in the order they are made. *)
Inductive event :=
| EvReadFile (name : string)
| EvOpen10 (dir : string)
| EvClose10 (dir : string)
| EvNewKV08 (dir : string)
| EvClose08 (dir : string)
| EvTempDir (dir prefix : string)
| EvRemove (name : string)
| EvRename (oldpath newpath : string)
| EvSet (dir key value : string)
| EvCommit (dir : string)
| EvCancel.

Inductive thread := Producer | Consumer.

(** The state outside the program.  [cancelled] is the [Done] channel of the
    run's context.  The last four fields are what the environment decides:
    [faults] says, call by call, whether the next fallible call fails and
    with which text; [names] are the random suffixes [ioutil.TempDir]
    draws; [coins] settles a [select] with two ready cases; [sched] is the
    order in which the two goroutines of a migration take their steps. *)
Record World := {
  fs : gmap string dirent;
  cancelled : bool;
  trace : list event;
  faults : list (option string);
  names : list string;
  coins : list bool;
  sched : list thread;
}.

Definition set_fs (f : gmap string dirent) (w : World) : World :=
  {| fs := f; cancelled := cancelled w; trace := trace w;
     faults := faults w; names := names w; coins := coins w; sched := sched w |}.

Definition set_cancelled (b : bool) (w : World) : World :=
  {| fs := fs w; cancelled := b; trace := trace w;
     faults := faults w; names := names w; coins := coins w; sched := sched w |}.

Definition emit (e : event) (w : World) : World :=
  {| fs := fs w; cancelled := cancelled w; trace := trace w ++ [e];
     faults := faults w; names := names w; coins := coins w; sched := sched w |}.

Definition set_sched (s : list thread) (w : World) : World :=
  {| fs := fs w; cancelled := cancelled w; trace := trace w;
     faults := faults w; names := names w; coins := coins w; sched := s |}.

(** The environment's decision for the next fallible call. *)
Definition next_fault (w : World) : option string * World :=
  match faults w with
  | [] => (None, w)
  | f :: rest =>
      (f, {| fs := fs w; cancelled := cancelled w; trace := trace w;
             faults := rest; names := names w; coins := coins w; sched := sched w |})
  end.

Definition next_name (w : World) : string * World :=
  match names w with
  | [] => ("", w)
  | n :: rest =>
      (n, {| fs := fs w; cancelled := cancelled w; trace := trace w;
             faults := faults w; names := rest; coins := coins w; sched := sched w |})
  end.

Definition next_coin (w : World) : bool * World :=
  match coins w with
  | [] => (false, w)
  | b :: rest =>
      (b, {| fs := fs w; cancelled := cancelled w; trace := trace w;
             faults := faults w; names := names w; coins := rest; sched := sched w |})
  end.

(** *** Operating system *)

(** [ioutil.ReadFile(name)] *)
Definition ioutil_ReadFile (name : string) (w : World) : (string * option error) * World :=
  let '(f, w) := next_fault (emit (EvReadFile name) w) in
  match f with
  | Some msg => (("", Some (OtherError msg)), w)
  | None =>
      match fs w !! name with
      | Some (File data) => ((data, None), w)
      | Some _ => (("", Some (OtherError ("read " ++ name ++ ": is a directory")%string)), w)
      | None => (("", Some (OtherError ("open " ++ name ++ ": no such file or directory")%string)), w)
      end
  end.

(** [ioutil.TempDir(dir, prefix)]: a new directory [dir/prefix<random>].
    The library draws again when the name is taken and gives up after many
    draws; here one draw is made and a taken name is the failure. *)
Definition ioutil_TempDir `{GoLib} (dir prefix : string) (w : World)
  : (string * option error) * World :=
  let '(f, w) := next_fault (emit (EvTempDir dir prefix) w) in
  match f with
  | Some msg => (("", Some (OtherError msg)), w)
  | None =>
      let '(suffix, w) := next_name w in
      let name := filepath_Join dir (prefix ++ suffix)%string in
      match fs w !! name with
      | Some _ => (("", Some (OtherError ("mkdir " ++ name ++ ": file exists")%string)), w)
      | None => ((name, None), set_fs (<[name := EmptyDir]> (fs w)) w)
      end
  end.

(** [os.Remove(name)]: removes a file or an empty directory. *)
Definition os_Remove (name : string) (w : World) : option error * World :=
  let '(f, w) := next_fault (emit (EvRemove name) w) in
  match f with
  | Some msg => (Some (OtherError msg), w)
  | None =>
      match fs w !! name with
      | Some (File _) | Some EmptyDir => (None, set_fs (delete name (fs w)) w)
      | Some _ => (Some (OtherError ("remove " ++ name ++ ": directory not empty")%string), w)
      | None => (Some (OtherError ("remove " ++ name ++ ": no such file or directory")%string), w)
      end
  end.

Definition is_dir (d : dirent) : bool :=
  match d with File _ => false | _ => true end.

(** [os.Rename(oldpath, newpath)]: atomic; a failed rename changes nothing.
    The new name must be free, or hold an empty directory when a directory
    is moved, or a file when a file is moved. *)
Definition os_Rename (oldpath newpath : string) (w : World) : option error * World :=
  let '(f, w) := next_fault (emit (EvRename oldpath newpath) w) in
  match f with
  | Some msg => (Some (OtherError msg), w)
  | None =>
      match fs w !! oldpath with
      | None =>
          (Some (OtherError ("rename " ++ oldpath ++ " " ++ newpath ++ ": no such file or directory")%string), w)
      | Some d =>
          if decide (oldpath = newpath) then (None, w)
          else
            let moved := set_fs (<[newpath := d]> (delete oldpath (fs w))) w in
            match fs w !! newpath with
            | None => (None, moved)
            | Some EmptyDir => if is_dir d then (None, moved)
                               else (Some (OtherError ("rename " ++ oldpath ++ " " ++ newpath ++ ": is a directory")%string), w)
            | Some (File _) => if is_dir d
                               then (Some (OtherError ("rename " ++ oldpath ++ " " ++ newpath ++ ": not a directory")%string), w)
                               else (None, moved)
            | Some _ => (Some (OtherError ("rename " ++ oldpath ++ " " ++ newpath ++ ": file exists")%string), w)
            end
      end
  end.

(** *** The two badger adapters *)

(** The text with which either badger refuses a directory written by
    another version; the program looks for its beginning only. *)
Definition unsupported_version_prefix := "manifest has unsupported version:".

Definition manifest_error (found supported : Z) : error :=
  OtherError (unsupported_version_prefix ++ " " ++ pretty found
              ++ " (we support " ++ pretty supported ++ ")")%string.

Definition invalid_dir_error (dir : string) : error :=
  OtherError ("Invalid Dir: " ++ dir)%string.

(** [badger10.Open(opt)] with [opt.Dir = opt.ValueDir = dir].  It opens a
    1.0 store, makes one in an empty directory, and refuses the manifest of
    any other version. *)
Definition badger10_Open (dir : string) (w : World) : option error * World :=
  let '(f, w) := next_fault (emit (EvOpen10 dir) w) in
  match f with
  | Some msg => (Some (OtherError msg), w)
  | None =>
      match fs w !! dir with
      | Some (Badger10 _) => (None, w)
      | Some EmptyDir => (None, set_fs (<[dir := Badger10 ∅]> (fs w)) w)
      | Some (Badger08 _) => (Some (manifest_error 2 4), w)
      | Some BadgerOther => (Some (manifest_error 3 4), w)
      | _ => (Some (invalid_dir_error dir), w)
      end
  end.

(** [db.Close()] *)
Definition badger10_Close (dir : string) (w : World) : World := emit (EvClose10 dir) w.

(** [badger08.NewKV(&opt)]: the handle is given by the pairs its iterator
    will yield. *)
Definition badger08_NewKV (dir : string) (w : World)
  : (list (string * string) * option error) * World :=
  let '(f, w) := next_fault (emit (EvNewKV08 dir) w) in
  match f with
  | Some msg => (([], Some (OtherError msg)), w)
  | None =>
      match fs w !! dir with
      | Some (Badger08 items) => ((items, None), w)
      | Some EmptyDir => (([], None), set_fs (<[dir := Badger08 []]> (fs w)) w)
      | Some (Badger10 _) => (([], Some (manifest_error 4 2)), w)
      | Some BadgerOther => (([], Some (manifest_error 3 2)), w)
      | _ => (([], Some (invalid_dir_error dir)), w)
      end
  end.

(** [txn.Set(key, value)] on the transaction whose pending writes are
    [pending]. *)
Definition txn_Set (dir : string) (pending : gmap string string) (key value : string)
    (w : World) : (gmap string string * option error) * World :=
  let '(f, w) := next_fault (emit (EvSet dir key value) w) in
  match f with
  | Some msg => ((pending, Some (OtherError msg)), w)
  | None => ((<[key := value]> pending, None), w)
  end.

(** [txn.Commit(nil)]: all pending writes reach the store, or none. *)
Definition txn_Commit (dir : string) (pending : gmap string string) (w : World)
  : option error * World :=
  let '(f, w) := next_fault (emit (EvCommit dir) w) in
  match f with
  | Some msg => (Some (OtherError msg), w)
  | None =>
      match fs w !! dir with
      | Some (Badger10 kvs) => (None, set_fs (<[dir := Badger10 (pending ∪ kvs)]> (fs w)) w)
      | _ => (Some (invalid_dir_error dir), w)
      end
  end.

(** [c.cancel()] *)
Definition cancel (w : World) : World := set_cancelled true (emit EvCancel w).

(** ** The program *)

(** A Go function that may change the world, and may never return (a
    goroutine that waits forever on a channel): [None] is "no return". *)
Definition M (A : Type) : Type := World → option (A * World).

Definition ret {A} (a : A) : M A := λ w, Some (a, w).

Definition bind {A B} (m : M A) (k : A → M B) : M B :=
  λ w, match m w with
       | Some (a, w') => k a w'
       | None => None
       end.

(** A call that returns a result, and one that only acts. *)
Definition call {A} (f : World → A * World) : M A := λ w, Some (f w).
Definition act (f : World → World) : M unit := λ w, Some (tt, f w).

Declare Scope go_scope.
Delimit Scope go_scope with go.
Notation "x <- m ;; k" := (bind m (λ x, k))
  (at level 100, m at next level, right associativity) : go_scope.
Open Scope go_scope.

(** [type keyValue struct], lines 32-35 *)
Record keyValue := { key : string; value : string }.

(** [type Process struct], lines 37-44.  The state of [ctx] is the field
    [cancelled] of the world, [cancel] is [cancel]; [dbPaths] is never
    read. *)
Record Process := { path : string }.

(** [err == nil || err != e0] *)
Definition nil_or_not (err : option error) (e0 : error) : bool :=
  match err with
  | None => true
  | Some e => bool_decide (e ≠ e0)
  end.

(** What [try10] and [try08] do with a failed open, lines 102-107 and
    120-125. *)
Definition classify (e : error) : error :=
  if strings_HasPrefix (Error e) unsupported_version_prefix
  then ErrInvalidVersion else e.

(** [try10], lines 95-111 *)
Definition try10 (dir : string) : M (option error) :=
  err <- call (badger10_Open dir) ;;
  match err with
  | Some e => ret (Some (classify e))
  | None => _ <- act (badger10_Close dir) ;; ret None
  end.

(** *** The two goroutines of a migration *)

(** The goroutine started by [try08], lines 127-150, by the place it is at:
    [PLoop rest] at the test of the loop, the iterator before [rest];
    [PSelect kv rest] in the callback of [item.Value], at the [select];
    [PReturned] once it has returned. *)
Inductive producer :=
| PLoop (rest : list (string * string))
| PSelect (kv : keyValue) (rest : list (string * string))
| PReturned.

(** [migrateData], lines 155-227, by the call it is about to make.
    [CRange] waits for the next entry of [data] with the pending writes
    [txn] and the counter [n]; [CSet] has received [entry]. *)
Inductive consumer :=
| CTempDir
| COpen (temp : string)
| CRange (temp : string) (txn : gmap string string) (n : nat)
| CSet (temp : string) (txn : gmap string string) (n : nat) (entry : keyValue)
| CCommit (temp : string) (txn : gmap string string)
| CBackup (temp : string)
| CRemove (temp backup : string)
| CRenameOld (temp backup : string)
| CRenameNew (temp backup : string)
| CReturn (err : option error).

(** The two goroutines, the channel [out] (unbuffered: it only has the
    state "closed") and the world. *)
Record Conf := {
  prod : producer;
  cons : consumer;
  closed : bool;
  world : World;
}.

Definition receiving (c : consumer) : bool :=
  match c with CRange _ _ _ => true | _ => false end.

(** The receive of [for entry := range data]. *)
Definition receive (kv : keyValue) (c : consumer) : consumer :=
  match c with
  | CRange temp txn n => CSet temp txn n kv
  | _ => c
  end.

(** One step of the goroutine of [try08] on the store at [dir].  A step
    that cannot be taken (the [select] has no ready case) leaves the
    configuration as it is. *)
Definition producer_step (dir : string) (cf : Conf) : Conf :=
  let w := world cf in
  let returned w := {| prod := PReturned; cons := cons cf; closed := closed cf;
                       world := emit (EvClose08 dir) w |} in
  match prod cf with
  | PLoop [] =>
      (* it.Valid() is false: close(out); deferred it.Close(), kv.Close() *)
      {| prod := PReturned; cons := cons cf; closed := true;
         world := emit (EvClose08 dir) w |}
  | PLoop ((k, v) :: rest) =>
      (* item.Value(func(data []byte) error {...}) *)
      let '(f, w) := next_fault w in
      match f with
      | Some _ => returned w      (* err != nil: logged, return *)
      | None => {| prod := PSelect {| key := k; value := v |} rest;
                   cons := cons cf; closed := closed cf; world := w |}
      end
  | PSelect kv rest =>
      let send w := {| prod := PLoop rest; cons := receive kv (cons cf);
                       closed := closed cf; world := w |} in
      match receiving (cons cf), cancelled w with
      | true, true =>
          let '(b, w) := next_coin w in
          if b then send w else returned w
      | true, false => send w           (* case out <- keyValue{...}; it.Next() *)
      | false, true => returned w       (* case <-c.ctx.Done(): ErrCancelled *)
      | false, false => cf
      end
  | PReturned => cf
  end.

(** One step of [migrateData] for the store at [dir].  The deferred
    [txn.Discard()] drops the pending writes, which live in the place
    only; the deferred [db.Close()] is [badger10_Close]. *)
Definition consumer_step `{GoLib} (c : Process) (dir : string) (cf : Conf) : Conf :=
  let w := world cf in
  let goto k w := {| prod := prod cf; cons := k; closed := closed cf; world := w |} in
  match cons cf with
  | CTempDir =>
      let '((temp, err), w) := ioutil_TempDir (path c) "badger-" w in
      match err with
      | Some e => goto (CReturn (Some e)) (cancel w)
      | None => goto (COpen temp) w
      end
  | COpen temp =>
      let '(err, w) := badger10_Open temp w in
      match err with
      | Some e => goto (CReturn (Some e)) (cancel w)
      | None => goto (CRange temp ∅ 0) w
      end
  | CRange temp txn n =>
      if closed cf then goto (CCommit temp txn) w else cf
  | CSet temp txn n entry =>
      let '((txn, err), w) := txn_Set temp txn (key entry) (value entry) w in
      match err with
      | Some e => goto (CReturn (Some e)) (badger10_Close temp (cancel w))
      | None => goto (CRange temp txn (S n)) w
      end
  | CCommit temp txn =>
      let '(err, w) := txn_Commit temp txn w in
      let w := badger10_Close temp w in
      match err with
      | Some e => goto (CReturn (Some e)) w
      | None => goto (CBackup temp) w
      end
  | CBackup temp =>
      let '((backup, err), w) := ioutil_TempDir (path c) "badger-backup-" w in
      match err with
      | Some e => goto (CReturn (Some e)) w
      | None => goto (CRemove temp backup) w
      end
  | CRemove temp backup =>
      let '(err, w) := os_Remove backup w in
      match err with
      | Some e => goto (CReturn (Some e)) w
      | None => goto (CRenameOld temp backup) w
      end
  | CRenameOld temp backup =>
      let '(err, w) := os_Rename dir backup w in
      match err with
      | Some e => goto (CReturn (Some e)) w
      | None => goto (CRenameNew temp backup) w
      end
  | CRenameNew temp backup =>
      let '(err, w) := os_Rename temp dir w in
      match err with
      | Some e => goto (CReturn (Some e)) w
      | None => goto (CReturn None) w
      end
  | CReturn _ => cf
  end.

Definition step `{GoLib} (c : Process) (dir : string) (t : thread) (cf : Conf) : Conf :=
  match t with
  | Producer => producer_step dir cf
  | Consumer => consumer_step c dir cf
  end.

(** Any number of steps, in the order [sch]. *)
Definition steps `{GoLib} (c : Process) (dir : string) (sch : list thread) (cf : Conf) : Conf :=
  fold_left (λ cf t, step c dir t cf) sch cf.

(** The steps of [sch] up to the return of [migrateData]; what is left of
    [sch] comes back. *)
Fixpoint run `{GoLib} (c : Process) (dir : string) (sch : list thread) (cf : Conf)
  : Conf * list thread :=
  match cons cf with
  | CReturn _ => (cf, sch)
  | _ =>
      match sch with
      | [] => (cf, [])
      | t :: sch' => run c dir sch' (step c dir t cf)
      end
  end.

(** A schedule in which [migrateData] and the goroutine take a step in
    turn, [n] times. *)
Fixpoint alternate (n : nat) : list thread :=
  match n with
  | O => []
  | S n => Consumer :: Producer :: alternate n
  end.

(** [migrateData(data, path)], lines 155-227, with the goroutine at the
    other end of [data].  It returns when its steps reach [CReturn]; a
    schedule that ends before is a migration that has not returned. *)
Definition migrateData `{GoLib} (c : Process) (data : producer) (dir : string)
  : M (option error) :=
  λ w,
    let '(cf, rest) :=
      run c dir (sched w)
        {| prod := data; cons := CTempDir; closed := false; world := w |} in
    match cons cf with
    | CReturn err => Some (err, set_sched rest (world cf))
    | _ => None
    end.

(** [try08], lines 113-153 *)
Definition try08 `{GoLib} (c : Process) (dir : string) : M (option error) :=
  r <- call (badger08_NewKV dir) ;;
  let '(items, err) := r in
  match err with
  | Some e => ret (Some (classify e))
  | None => migrateData c (PLoop items) dir
  end.

(** [upgradeDs], lines 77-93 *)
Definition upgradeDs `{GoLib} (c : Process) (dir : string) : M (option error) :=
  err <- try10 dir ;;
  if nil_or_not err ErrInvalidVersion then ret err
  else
    err <- try08 c dir ;;
    if nil_or_not err ErrInvalidVersion then ret err
    else ret (Some ErrInvalidVersion).

(** [checkRepoVersion], lines 295-311 *)
Definition checkRepoVersion `{GoLib} (c : Process) : M (option error) :=
  r <- call (ioutil_ReadFile (filepath_Join (path c) "version")) ;;
  let '(vstr, err) := r in
  match err with
  | Some e => ret (Some e)
  | None =>
      let '(version, err) := strconv_Atoi (strings_TrimSpace vstr) in
      match err with
      | Some msg => ret (Some (OtherError msg))
      | None =>
          if bool_decide (version ≠ SuppertedRepoVersion)
          then ret (Some (fmt_Errorf_version version))
          else ret None
      end
  end.

(** [loadSpecs], lines 229-242 *)
Definition loadSpecs `{GoLib} (c : Process) : M (list string * option error) :=
  r <- call (ioutil_ReadFile (path_Join (path c) SpecsFile)) ;;
  let '(specData, err) := r in
  match err with
  | Some e => ret ([], Some e)
  | None =>
      let '(spec, err) := json_Unmarshal specData in
      match err with
      | Some msg => ret ([], Some (OtherError msg))
      | None => ret (parseSpecs spec)
      end
  end.

(** The loop of [Upgrade], lines 67-72 *)
Fixpoint range_paths `{GoLib} (p : Process) (paths : list string) : M (option error) :=
  match paths with
  | [] => ret None
  | dir :: paths' =>
      err <- upgradeDs p (path_Join (path p) dir) ;;
      match err with
      | Some e => ret (Some e)
      | None => range_paths p paths'
      end
  end.

(** [Upgrade], lines 46-75.  [context.WithCancel] makes a context that is
    not cancelled. *)
Definition Upgrade `{GoLib} (baseDir : string) : M (option error) :=
  _ <- act (set_cancelled false) ;;
  let p := {| path := baseDir |} in
  err <- checkRepoVersion p ;;
  match err with
  | Some e => ret (Some e)
  | None =>
      r <- loadSpecs p ;;
      let '(paths, err) := r in
      match err with
      | Some e => ret (Some e)
      | None => range_paths p paths
      end
  end.

(** ** The words of the specification *)

(** *** Spec trees *)

(** The [SpecNode] of the specification's data model. *)
Inductive SpecNode :=
| Mount (children : list SpecNode)
| Measure (child : SpecNode)
| LeafStore (kind path : string).

(** The leaves of a tree, depth first and left to right. *)
Fixpoint leaves (n : SpecNode) : list (string * string) :=
  match n with
  | Mount children => flat_map leaves children
  | Measure child => leaves child
  | LeafStore kind path => [(kind, path)]
  end.

(** The paths of the [badgerds] leaves, in the order of [leaves], each as
    often as it occurs. *)
Definition badgerds_paths (n : SpecNode) : list string :=
  snd <$> filter (λ l, l.1 = "badgerds") (leaves n).

(** A valid tree has leaves of the three recognized kinds only. *)
Definition valid_tree (n : SpecNode) : Prop :=
  Forall (λ l, l.1 = "badgerds" ∨ l.1 = "flatfs" ∨ l.1 = "levelds") (leaves n).

(** The documents that describe a tree: the fields of the external
    interface, whatever other fields come with them. *)
Inductive represents : obj → SpecNode → Prop :=
| represents_mount spec mounts children :
    index spec "type" = Some (JStr "mount") →
    index spec "mounts" = Some (JArr (JObj <$> mounts)) →
    Forall2 represents mounts children →
    represents spec (Mount children)
| represents_measure spec o child :
    index spec "type" = Some (JStr "measure") →
    index spec "child" = Some (JObj o) →
    represents o child →
    represents spec (Measure child)
| represents_leaf spec kind path :
    index spec "type" = Some (JStr kind) →
    index spec "path" = Some (JStr path) →
    represents spec (LeafStore kind path).

(** The document of a tree with no other field. *)
Fixpoint encode (n : SpecNode) : obj :=
  match n with
  | Mount children =>
      OCons "type" (JStr "mount")
        (OCons "mounts" (JArr (map (λ c, JObj (encode c)) children)) ONil)
  | Measure child =>
      OCons "type" (JStr "measure") (OCons "child" (JObj (encode child)) ONil)
  | LeafStore kind path =>
      OCons "type" (JStr kind) (OCons "path" (JStr path) ONil)
  end.

(** *** Malformed nodes *)

Definition is_obj (j : json) : bool :=
  match j with JObj _ => true | _ => false end.

(** What is wrong with a node taken alone, by the text of the parse error
    that names it: a ["type"] that is no string or none of the five, a
    ["mounts"] that is no array or holds something else than objects, a
    ["child"] that is no object, a ["path"] that is no string. *)
Definition defect (spec : obj) : option string :=
  match index spec "type" with
  | Some (JStr t) =>
      if String.eqb t "mount" then
        match index spec "mounts" with
        | Some (JArr mounts) =>
            if forallb is_obj mounts then None else Some "unexpected mount type"
        | _ => Some "unexpected mounts type"
        end
      else if String.eqb t "measure" then
        match index spec "child" with
        | Some (JObj _) => None
        | _ => Some "unexpected child type"
        end
      else if String.eqb t "badgerds" then
        match index spec "path" with
        | Some (JStr _) => None
        | _ => Some "unexpected path type"
        end
      else if String.eqb t "flatfs" || String.eqb t "levelds" then None
      else Some "unexpected ds type"
  | _ => Some "unexpected spec type"
  end.

(** The nodes of a document: itself, the objects mounted by a ["mount"]
    node, the child of a ["measure"] node, and theirs. *)
Inductive node_of : obj → obj → Prop :=
| node_self spec : node_of spec spec
| node_mounted spec mounts mount n :
    index spec "type" = Some (JStr "mount") →
    index spec "mounts" = Some (JArr mounts) →
    JObj mount ∈ mounts →
    node_of mount n →
    node_of spec n
| node_child spec child n :
    index spec "type" = Some (JStr "measure") →
    index spec "child" = Some (JObj child) →
    node_of child n →
    node_of spec n.

(** *** Byte slices and the memory they share *)

(** For what the producer hands over, [[]byte] is taken as Go has it: a
    slice is a view of the first [len] bytes of an array, and two slices on
    one array see each other's writes. *)
Module Sharing.

Record slice := { array : nat; len : nat }.

(** The arrays of the heap, by address. *)
Definition heap := gmap nat string.


(** [type keyValue struct], lines 32-35 *)
Record keyValue := { key : slice; value : slice }.

(** An item of the badger 0.8 iterator, by the two slices it gives out. *)
Record KVItem := { item_key : slice; item_value : slice }.

(** [item.Key()] *)
Definition Key (item : KVItem) : slice := item_key item.

(** [item.Value(consumer)]: the callback gets the item's slice. *)
Definition Value {A} (item : KVItem) (consumer : slice → A) : A :=
  consumer (item_value item).

(** The value sent on [out], line 135. *)
Definition sent (item : KVItem) : keyValue :=
  Value item (λ data, {| key := Key item; value := data |}).





End Sharing.

(** *** A measure for inductions over documents *)

Fixpoint json_size (j : json) : nat :=
  match j with
  | JArr elems =>
      S ((fix sum (l : list json) : nat :=
            match l with
            | [] => 0
            | x :: l' => json_size x + sum l'
            end) elems)
  | JObj fields => S (obj_size fields)
  | _ => 1
  end
with obj_size (m : obj) : nat :=
  match m with
  | ONil => 0
  | OCons _ v rest => S (json_size v + obj_size rest)
  end.

(** ** A library to run the program on examples *)

(** One implementation of [GoLib], enough for ASCII text: joining with a
    slash, trimming ASCII white space, reading a signed decimal number of
    64 bits, and a decoder given by the documents it knows. *)
Module Model.

Definition Join (a b : string) : string := (a ++ "/" ++ b)%string.

Definition is_space (a : Ascii.ascii) : bool :=
  let n := Ascii.N_of_ascii a in
  ((9 <=? n) && (n <=? 13) || (n =? 32))%N.

Fixpoint trim_left (s : string) : string :=
  match s with
  | String a s' => if is_space a then trim_left s' else s
  | EmptyString => EmptyString
  end.

Definition TrimSpace (s : string) : string :=
  String.rev (trim_left (String.rev (trim_left s))).

Definition digit (a : Ascii.ascii) : option Z :=
  let n := Z.of_N (Ascii.N_of_ascii a) in
  if ((48 <=? n) && (n <=? 57))%Z then Some (n - 48)%Z else None.

Fixpoint digits (s : string) (acc : Z) : option Z :=
  match s with
  | EmptyString => Some acc
  | String a s' =>
      match digit a with
      | Some d => digits s' (10 * acc + d)%Z
      | None => None
      end
  end.

Definition syntax_error (s : string) : string :=
  ("strconv.Atoi: parsing " ++ s ++ ": invalid syntax")%string.

Definition range_error (s : string) : string :=
  ("strconv.Atoi: parsing " ++ s ++ ": value out of range")%string.

Definition Atoi (s : string) : Z * option string :=
  let '(neg, body) :=
    match s with
    | String a s' =>
        if (Ascii.N_of_ascii a =? 45)%N then (true, s')
        else if (Ascii.N_of_ascii a =? 43)%N then (false, s')
        else (false, s)
    | EmptyString => (false, s)
    end in
  match body with
  | EmptyString => (0%Z, Some (syntax_error s))
  | _ =>
      match digits body 0 with
      | None => (0%Z, Some (syntax_error s))
      | Some n =>
          let v := if neg then (- n)%Z else n in
          if ((v <? - 2 ^ 63) || (2 ^ 63 - 1 <? v))%Z
          then ((if neg then - 2 ^ 63 else 2 ^ 63 - 1)%Z, Some (range_error s))
          else (v, None)
      end
  end.

Fixpoint Unmarshal (docs : list (string * obj)) (data : string) : obj * option string :=
  match docs with
  | [] => (ONil, Some "invalid character looking for beginning of value")
  | (text, o) :: docs' => if String.eqb text data then (o, None) else Unmarshal docs' data
  end.

Definition lib (docs : list (string * obj)) : GoLib :=
  {| filepath_Join := Join;
     path_Join := Join;
     strings_TrimSpace := TrimSpace;
     strconv_Atoi := Atoi;
     json_Unmarshal := Unmarshal docs |}.

(** The scenario of the specification: a repository of version 6 whose
    spec document mounts a badger store at [a] and a flatfs store at
    [b]. *)
Definition scenario_text : string :=
  "{type:mount,mounts:[{type:badgerds,path:a},{type:flatfs,path:b}]}".

Definition scenario_spec : obj :=
  OCons "type" (JStr "mount")
    (OCons "mounts"
       (JArr [JObj (OCons "type" (JStr "badgerds") (OCons "path" (JStr "a") ONil));
              JObj (OCons "type" (JStr "flatfs") (OCons "path" (JStr "b") ONil))])
       ONil).

Definition scenario_tree : SpecNode :=
  Mount [LeafStore "badgerds" "a"; LeafStore "flatfs" "b"].

Definition scenario_lib : GoLib := lib [(scenario_text, scenario_spec)].

Definition scenario_items : list (string * string) :=
  [("k1", "v1"); ("k2", "v2"); ("k3", "v3")].

Definition scenario_fs : gmap string dirent :=
  <["repo/version" := File (" 6" ++ String (Ascii.ascii_of_N 10) EmptyString)%string]>
    (<["repo/datastore_spec" := File scenario_text]>
       (<["repo/a" := Badger08 scenario_items]>
          (<["repo/b" := EmptyDir]> ∅))).

Definition scenario_world : World :=
  {| fs := scenario_fs; cancelled := false; trace := [];
     faults := []; names := ["111"; "222"]; coins := [];
     sched := alternate 20 |}.

(** The world in which the store at [a] is migrated, with the faults the
    environment has decided. *)
Definition migration_world (fl : list (option string)) : World :=
  {| fs := scenario_fs; cancelled := false; trace := [];
     faults := fl; names := ["111"; "222"]; coins := [];
     sched := alternate 20 |}.

Definition repo : Process := {| path := "repo" |}.

(** The world a run ends in. *)
Definition final_world (r : option (option error * World)) : World :=
  match r with
  | Some (_, w) => w
  | None => migration_world []
  end.

(** The environment lets the [n] first fallible calls succeed and the
    next one fail with [msg]. *)
Definition fail_after (n : nat) (msg : string) : list (option string) :=
  replicate n None ++ [Some msg].

(** The same repository with the version marker of a later version. *)
Definition later_world : World :=
  {| fs := <["repo/version" := File "7"]> scenario_fs; cancelled := false;
     trace := []; faults := []; names := []; coins := []; sched := [] |}.

(** The repository once its store at [a] is a badger 1.0 store. *)
Definition upgraded_world : World :=
  {| fs := <["repo/a" := Badger10 (list_to_map scenario_items)]> scenario_fs;
     cancelled := false; trace := []; faults := []; names := [];
     coins := []; sched := [] |}.

(** A spec document with a node of an unknown type next to a good one. *)
Definition unknown_type_node : obj :=
  OCons "type" (JStr "s3ds") (OCons "path" (JStr "c") ONil).

Definition unknown_type_spec : obj :=
  OCons "type" (JStr "mount")
    (OCons "mounts"
       (JArr [JObj (OCons "type" (JStr "badgerds") (OCons "path" (JStr "a") ONil));
              JObj unknown_type_node])
       ONil).

End Model.

(** ** What holds during a migration *)

(** The pending writes after the puts of [l], in order. *)
Definition puts (l : list (string * string)) : gmap string string :=
  foldl (λ m kv, <[kv.1 := kv.2]> m) ∅ l.

(** The configuration in which [migrateData] starts: the goroutine before
    the first item, no call made yet. *)
Definition start (items : list (string * string)) (w0 : World) : Conf :=
  {| prod := PLoop items; cons := CTempDir; closed := false; world := w0 |}.

(** The pairs handed over so far are a prefix [sent] of the items: the
    goroutine stands after it, the transaction holds its puts, and the
    channel is closed only when all items were sent. *)
Definition data_inv (items : list (string * string)) (cf : Conf) : Prop :=
  ∃ sent : list (string * string),
    match prod cf with
    | PLoop rest => items = sent ++ rest ∧ closed cf = false
    | PSelect kv rest => items = sent ++ (key kv, value kv) :: rest ∧ closed cf = false
    | PReturned => closed cf = true → sent = items
    end
    ∧ match cons cf with
      | CTempDir | COpen _ => sent = []
      | CRange _ txn n => txn = puts sent ∧ n = length sent
      | CSet _ txn n entry =>
          ∃ before, sent = before ++ [(key entry, value entry)]
                    ∧ txn = puts before ∧ n = length before
      | CCommit _ txn => txn = puts sent ∧ closed cf = true
      | _ => True
      end.

(** Where the old store [d0], the new store and the backup are, place by
    place. *)
Definition fs_inv (dir : string) (d0 : dirent) (items : list (string * string))
    (cf : Conf) : Prop :=
  let f := fs (world cf) in
  match cons cf with
  | CTempDir => f !! dir = Some d0
  | COpen temp => f !! dir = Some d0 ∧ temp ≠ dir ∧ f !! temp = Some EmptyDir
  | CRange temp _ _ | CSet temp _ _ _ | CCommit temp _ =>
      f !! dir = Some d0 ∧ temp ≠ dir ∧ f !! temp = Some (Badger10 ∅)
  | CBackup temp =>
      f !! dir = Some d0 ∧ temp ≠ dir ∧ f !! temp = Some (Badger10 (puts items))
  | CRemove temp backup | CRenameOld temp backup =>
      f !! dir = Some d0 ∧ temp ≠ dir ∧ f !! temp = Some (Badger10 (puts items))
      ∧ backup ≠ dir ∧ backup ≠ temp
  | CRenameNew temp backup =>
      f !! dir = None ∧ temp ≠ dir ∧ f !! temp = Some (Badger10 (puts items))
      ∧ f !! backup = Some d0 ∧ backup ≠ temp
  | CReturn None =>
      f !! dir = Some (Badger10 (puts items)) ∧ ∃ backup, f !! backup = Some d0
  | CReturn (Some _) => True
  end.

(** Since the world [w0] no commit was made. *)
Definition no_commit (w0 w : World) : Prop :=
  ∃ tl, trace w = trace w0 ++ tl ∧ ∀ d, EvCommit d ∉ tl.

(** Every badger 1.0 store is empty or is one of [w0], as it was. *)
Definition no_record (w0 w : World) : Prop :=
  ∀ name kvs, fs w !! name = Some (Badger10 kvs) →
              kvs = ∅ ∨ fs w0 !! name = Some (Badger10 kvs).

(** The context is cancelled only once [migrateData] has returned an
    error, and then nothing was committed. *)
Definition cancel_inv (w0 : World) (cf : Conf) : Prop :=
  match cons cf with
  | CTempDir | COpen _ | CRange _ _ _ | CSet _ _ _ _ | CCommit _ _ =>
      cancelled (world cf) = false ∧ no_commit w0 (world cf) ∧ no_record w0 (world cf)
  | CReturn (Some _) =>
      cancelled (world cf) = true → no_commit w0 (world cf) ∧ no_record w0 (world cf)
  | _ => cancelled (world cf) = false
  end.

(** The errors of [migrateData] are those of the calls it makes. *)
Definition err_inv (cf : Conf) : Prop :=
  ∀ e, cons cf = CReturn (Some e) → ∃ msg, e = OtherError msg.

(** *** A distinguished error for the second rename *)

(** [migrateData] fails in its second rename: it is about to rename the
    temporary store to the path, and returns the error [e]. *)
Definition second_rename_fails `{GoLib} (c : Process) (dir : string)
    (cf : Conf) (e : error) : Prop :=
  (∃ temp backup, cons cf = CRenameNew temp backup)
  ∧ cons (consumer_step c dir cf) = CReturn (Some e).

(** [migrateData] fails in another call. *)
Definition other_call_fails `{GoLib} (c : Process) (dir : string)
    (cf : Conf) (e : error) : Prop :=
  (∀ temp backup, cons cf ≠ CRenameNew temp backup)
  ∧ (∀ r, cons cf ≠ CReturn r)
  ∧ cons (consumer_step c dir cf) = CReturn (Some e).

(** The kinds of error the package has: its two own values, and the
    errors that come from elsewhere. *)
Inductive error_kind := InvalidVersionKind | CancelledKind | OtherKind.

Definition kind_of (e : error) : error_kind :=
  match e with
  | ErrInvalidVersion => InvalidVersionKind
  | ErrCancelled => CancelledKind
  | OtherError _ => OtherKind
  end.

(** The kind [k] is the kind of the errors of a failed second rename, and
    of no other failure of [migrateData]. *)
Definition distinguished `{GoLib} (k : error_kind) : Prop :=
  ∀ c dir items w0 sch e,
    let cf := steps c dir sch (start items w0) in
    (second_rename_fails c dir cf e → kind_of e = k)
    ∧ (other_call_fails c dir cf e → kind_of e ≠ k).

(** *** A migration without faults *)

(** How far the two goroutines are from their end. *)
Definition producer_rank (p : producer) : nat :=
  match p with
  | PLoop rest => 3 * length rest + 1
  | PSelect _ rest => 3 * length rest + 3
  | PReturned => 0
  end.

Definition consumer_rank (k : consumer) : nat :=
  match k with
  | CTempDir => 9
  | COpen _ => 8
  | CSet _ _ _ _ => 7
  | CRange _ _ _ => 6
  | CCommit _ _ => 5
  | CBackup _ => 4
  | CRemove _ _ => 3
  | CRenameOld _ _ => 2
  | CRenameNew _ _ => 1
  | CReturn _ => 0
  end.

Definition rank (cf : Conf) : nat :=
  producer_rank (prod cf) + consumer_rank (cons cf).


(** ** Where the stores are during a migration *)

(** The names [ioutil.TempDir] makes for [migrateData]: a directory of the
    repository root whose name starts with the prefix. *)
Definition temp_name `{GoLib} (c : Process) (name : string) : Prop :=
  ∃ suffix, name = filepath_Join (path c) ("badger-" ++ suffix)%string.

Definition backup_name `{GoLib} (c : Process) (name : string) : Prop :=
  ∃ suffix, name = filepath_Join (path c) ("badger-backup-" ++ suffix)%string.

(** The old store [d0] of the path [dir] is whole: it is at the path, or it
    is under a backup name and the path holds the new store with all the
    pairs, or nothing while the new store with all the pairs waits under a
    temporary name. *)
Definition store_safe `{GoLib} (c : Process) (dir : string) (d0 : dirent)
    (items : list (string * string)) (w : World) : Prop :=
  fs w !! dir = Some d0
  ∨ ∃ backup,
      backup_name c backup ∧ backup ≠ dir ∧ fs w !! backup = Some d0
      ∧ (fs w !! dir = Some (Badger10 (puts items))
         ∨ fs w !! dir = None
           ∧ ∃ temp, temp_name c temp ∧ fs w !! temp = Some (Badger10 (puts items))).

(** The names [migrateData] holds are names [ioutil.TempDir] made, and
    when it has returned the old store is whole. *)
Definition safe_inv `{GoLib} (c : Process) (dir : string) (d0 : dirent)
    (items : list (string * string)) (cf : Conf) : Prop :=
  match cons cf with
  | CTempDir => True
  | COpen temp | CRange temp _ _ | CSet temp _ _ _ | CCommit temp _ | CBackup temp =>
      temp_name c temp
  | CRemove temp backup | CRenameOld temp backup | CRenameNew temp backup =>
      temp_name c temp ∧ backup_name c backup
  | CReturn None =>
      ∃ backup, backup_name c backup ∧ backup ≠ dir
                ∧ fs (world cf) !! backup = Some d0
  | CReturn (Some _) => store_safe c dir d0 items (world cf)
  end.

(** The file system [f] against the one [f0] of the start: what was there
    under another name than [dir] is still there, and what is there now
    was there or has a name [ioutil.TempDir] made. *)
Definition framed `{GoLib} (c : Process) (dir : string)
    (f0 f : gmap string dirent) : Prop :=
  (∀ name d, name ≠ dir → f0 !! name = Some d → f !! name = Some d)
  ∧ (∀ name, is_Some (f !! name) → is_Some (f0 !! name) ∨ temp_name c name).

(** The file system is [framed] during a migration, and the names
    [migrateData] holds were free at the start. *)
Definition frame_inv `{GoLib} (c : Process) (dir : string) (w0 : World)
    (cf : Conf) : Prop :=
  framed c dir (fs w0) (fs (world cf))
  ∧ match cons cf with
    | COpen temp | CRange temp _ _ | CSet temp _ _ _ | CCommit temp _ | CBackup temp =>
        fs w0 !! temp = None
    | CRemove temp backup | CRenameOld temp backup | CRenameNew temp backup =>
        fs w0 !! temp = None ∧ fs w0 !! backup = None
    | _ => True
    end.

(** The temporary directory [temp], once made, is there until the last
    rename: it is there when [migrateData] has returned an error. *)
Definition leftover_inv (temp : string) (cf : Conf) : Prop :=
  match cons cf with
  | CTempDir => False
  | COpen t | CRange t _ _ | CSet t _ _ _ | CCommit t _ | CBackup t =>
      t = temp ∧ is_Some (fs (world cf) !! temp)
  | CRemove t b | CRenameOld t b | CRenameNew t b =>
      t = temp ∧ is_Some (fs (world cf) !! temp)
  | CReturn (Some _) => is_Some (fs (world cf) !! temp)
  | CReturn None => True
  end.

(** *** The end of the goroutine *)

(** The channel is closed only by the goroutine as it returns; past its
    loop [migrateData] has seen the channel closed, and when it has
    returned an error the context is cancelled or the goroutine has
    returned. *)
Definition done_inv (cf : Conf) : Prop :=
  (closed cf = true → prod cf = PReturned)
  ∧ match cons cf with
    | CTempDir | COpen _ | CRange _ _ _ | CSet _ _ _ _ => True
    | CReturn (Some _) => cancelled (world cf) = true ∨ prod cf = PReturned
    | _ => closed cf = true
    end.

(** *** The puts and the commit *)




(** [migrateData] waits for a pair of a goroutine that has returned
    without closing the channel. *)
Definition abandoned (cf : Conf) : Prop :=
  prod cf = PReturned ∧ closed cf = false ∧ receiving (cons cf) = true.

(** ** Worlds for the examples *)

Module Cases.

(** The migration of the scenario in which the call [n] of the machine
    fails: the goroutines start with the store open. *)
Definition failing (n : nat) : World :=
  Model.migration_world (Model.fail_after n "input/output error").

(** The steps of the scenario's migration under the schedule [sch]. *)
Definition after (w : World) (sch : list thread) : Conf :=
  @steps Model.scenario_lib Model.repo "repo/a" sch (start Model.scenario_items w).

(** The migration in which [migrateData] takes two steps, then the
    goroutine reads the first value, and the read fails. *)
Definition read_error_world : World :=
  set_sched ([Consumer; Consumer; Producer] ++ alternate 5) (failing 2).

(** A repository whose version marker is no number. *)
Definition garbled_world : World :=
  {| fs := <["repo/version" := File "six"]> Model.scenario_fs; cancelled := false;
     trace := []; faults := []; names := []; coins := []; sched := [] |}.

(** A repository whose spec document is no JSON the library knows. *)
Definition nospec_world : World :=
  {| fs := <["repo/datastore_spec" := File "{"]> Model.scenario_fs; cancelled := false;
     trace := []; faults := []; names := []; coins := []; sched := [] |}.

(** A repository whose store at [a] was written by another badger. *)
Definition other_world : World :=
  {| fs := <["repo/a" := BadgerOther]> Model.scenario_fs; cancelled := false;
     trace := []; faults := []; names := []; coins := []; sched := [] |}.

(** Spec documents that mount one and two stores, and both lists. *)
Definition leaf (kind path : string) : json :=
  JObj (OCons "type" (JStr kind) (OCons "path" (JStr path) ONil)).

Definition mount (ms : list json) : obj :=
  OCons "type" (JStr "mount") (OCons "mounts" (JArr ms) ONil).

End Cases.

(** * Proofs *)

(** ** Resolving the spec document *)

Section ParseSpecs.

Lemma with_index_eq {A} spec k (cont : option json → A) :
  with_index spec k cont = cont (index spec k).
Proof.
  induction spec as [|k' v rest IH]; simpl; [done|].
  by destruct (String.eqb k' k).
Qed.

(** [parseSpecs] is the function of the source. *)
Lemma parseSpecs_eq spec : parseSpecs spec = parseSpecs_body spec.
Proof.
  unfold parseSpecs_body.
  destruct spec as [|k v rest]; [reflexivity|].
  cbn -[with_index index String.eqb].
  rewrite with_index_eq.
  destruct (index _ "type") as [[| | |t| |]|]; try reflexivity.
  destruct (String.eqb t "mount"); [by rewrite with_index_eq|].
  destruct (String.eqb t "measure"); [by rewrite with_index_eq|].
  reflexivity.
Qed.

Lemma range_mounts_ok (mounts : list obj) (out : list string) :
  Forall (λ o, (parseSpecs o).2 = None) mounts →
  range_mounts (JObj <$> mounts) out
  = (out ++ concat ((λ o, (parseSpecs o).1) <$> mounts), None).
Proof.
  revert out. induction mounts as [|o mounts IH]; intros out Hok; simpl.
  - by rewrite app_nil_r.
  - inversion Hok as [|? ? Ho Hrest]; subst.
    destruct (parseSpecs o) as [paths err] eqn:Hp. simpl in Ho. subst err.
    rewrite IH by done. simpl. by rewrite app_assoc.
Qed.

Lemma SpecNode_induction (P : SpecNode → Prop) :
  (∀ children, Forall P children → P (Mount children)) →
  (∀ child, P child → P (Measure child)) →
  (∀ kind path, P (LeafStore kind path)) →
  ∀ n, P n.
Proof.
  intros Hmount Hmeasure Hleaf.
  fix IH 1. intros [children|child|kind path].
  - apply Hmount. induction children as [|c cs IHcs]; constructor; [apply IH | apply IHcs].
  - apply Hmeasure, IH.
  - apply Hleaf.
Qed.

Lemma valid_tree_mount children :
  valid_tree (Mount children) → Forall valid_tree children.
Proof.
  unfold valid_tree. simpl. induction children as [|c cs IH]; simpl; intros H.
  - constructor.
  - apply Forall_app in H as [H1 H2]. constructor; auto.
Qed.

Lemma badgerds_paths_mount children :
  badgerds_paths (Mount children) = concat (badgerds_paths <$> children).
Proof.
  unfold badgerds_paths. simpl.
  induction children as [|c cs IH]; simpl; [done|].
  by rewrite filter_app, fmap_app, IH.
Qed.

Lemma parseSpecs_represents n :
  ∀ spec, represents spec n → valid_tree n →
          parseSpecs spec = (badgerds_paths n, None).
Proof.
  induction n as [children IH|child IH|kind path] using SpecNode_induction;
    intros spec Hrep Hvalid; inversion Hrep; subst; rewrite parseSpecs_eq;
    unfold parseSpecs_body.
  - match goal with H : index spec "type" = _ |- _ => rewrite H end.
    match goal with H : index spec "mounts" = _ |- _ => rewrite H end.
    simpl String.eqb. cbv iota.
    apply valid_tree_mount in Hvalid.
    match goal with H : Forall2 represents _ _ |- _ => rename H into Hall end.
    assert (Forall2 (λ o c, parseSpecs o = (badgerds_paths c, None)) mounts children) as Hres.
    { clear -IH Hvalid Hall. induction Hall as [|o c os cs Hoc Hall IHall]; [constructor|].
      inversion IH; inversion Hvalid; subst. constructor; auto. }
    rewrite range_mounts_ok.
    + rewrite badgerds_paths_mount. simpl. f_equal.
      clear -Hres. induction Hres as [|o c os cs Hoc Hres IHres]; csimpl; [done|].
      by rewrite Hoc, IHres.
    + clear -Hres. induction Hres as [|o c os cs Hoc Hres IHres]; constructor; auto.
      by rewrite Hoc.
  - match goal with H : index spec "type" = _ |- _ => rewrite H end.
    match goal with H : index spec "child" = _ |- _ => rewrite H end.
    simpl String.eqb. cbv iota. by apply IH.
  - match goal with H : index spec "type" = _ |- _ => rewrite H end.
    match goal with H : index spec "path" = _ |- _ => rewrite H end.
    unfold valid_tree in Hvalid. simpl in Hvalid.
    apply Forall_inv in Hvalid. simpl in Hvalid.
    destruct Hvalid as [-> | [-> | ->]]; reflexivity.
Qed.

Lemma no_badgerds_paths n :
  Forall (λ l, l.1 ≠ "badgerds") (leaves n) → badgerds_paths n = [].
Proof.
  unfold badgerds_paths. induction (leaves n) as [|l ls IH]; intros H; [done|].
  inversion H; subst. rewrite filter_cons_False by done. auto.
Qed.

(** C3: for every valid spec tree the resolver returns the paths of the
    badgerds leaves, depth first and left to right, each as often as it
    occurs; it returns no path when no leaf is a badgerds leaf (all are
    flatfs or levelds); a measure node has the result of its child, a mount
    node the results of its children concatenated in the order of the
    array. *)
Theorem C3_parseSpecs_flattens spec n :
  represents spec n → valid_tree n →
  parseSpecs spec = (badgerds_paths n, None)
  ∧ (Forall (λ l, l.1 = "flatfs" ∨ l.1 = "levelds") (leaves n) →
     parseSpecs spec = ([], None))
  ∧ match n with
    | Measure _ =>
        ∃ child, index spec "child" = Some (JObj child)
                 ∧ parseSpecs spec = parseSpecs child
    | Mount _ =>
        ∃ mounts, index spec "mounts" = Some (JArr (JObj <$> mounts))
                  ∧ parseSpecs spec
                    = (concat ((λ o, (parseSpecs o).1) <$> mounts), None)
    | LeafStore _ _ => True
    end.
Proof.
  intros Hrep Hvalid. split; [by apply parseSpecs_represents|]. split.
  - intros Hnone. rewrite (parseSpecs_represents n) by done.
    rewrite no_badgerds_paths; [done|].
    eapply Forall_impl; [exact Hnone|]. intros l [H|H]; rewrite H; discriminate.
  - destruct n as [children|child|kind path]; [| |done].
    + inversion Hrep as [? mounts ? Hty Hms Hall| |]; subst.
      exists mounts. split; [done|].
      rewrite parseSpecs_eq. unfold parseSpecs_body. rewrite Hty, Hms.
      simpl String.eqb. cbv iota.
      rewrite range_mounts_ok; [done|].
      apply valid_tree_mount in Hvalid.
      clear -Hall Hvalid. induction Hall as [|o c os cs Hoc Hall IH]; constructor.
      * inversion Hvalid; subst. by rewrite (parseSpecs_represents c).
      * inversion Hvalid; subst. auto.
    + inversion Hrep as [|? o ? Hty Hch Hsub|]; subst.
      exists o. split; [done|].
      rewrite parseSpecs_eq. unfold parseSpecs_body. by rewrite Hty, Hch.
Qed.

Lemma C3_parseSpecs_flattens_witness :
  parseSpecs Model.scenario_spec = (["a"], None).
Proof.
  refine (proj1 (C3_parseSpecs_flattens Model.scenario_spec Model.scenario_tree _ _)).
  - apply (represents_mount _
             [OCons "type" (JStr "badgerds") (OCons "path" (JStr "a") ONil);
              OCons "type" (JStr "flatfs") (OCons "path" (JStr "b") ONil)]);
      [reflexivity | reflexivity |].
    repeat (apply List.Forall2_cons); [| |apply List.Forall2_nil];
      apply represents_leaf; reflexivity.
  - apply List.Forall_forall. intros l [<-|[<-|[]]]; simpl; auto.
Defined.

(** *** Malformed documents *)

Lemma index_size spec k v : index spec k = Some v → json_size v < obj_size spec.
Proof.
  induction spec as [|k' v' rest IH]; simpl; [done|].
  destruct (String.eqb k' k); [intros [= ->]; lia|].
  intros H. apply IH in H. lia.
Qed.

Lemma elem_size (ms : list json) m : m ∈ ms → json_size m < json_size (JArr ms).
Proof.
  simpl. induction 1 as [m ms|m m' ms Hin IH]; simpl in *; lia.
Qed.

Lemma mounted_size spec k ms o :
  index spec k = Some (JArr ms) → JObj o ∈ ms → obj_size o < obj_size spec.
Proof.
  intros Hk Hin. apply index_size in Hk. apply elem_size in Hin.
  simpl in *. lia.
Qed.

Lemma child_size spec k o : index spec k = Some (JObj o) → obj_size o < obj_size spec.
Proof. intros Hk. apply index_size in Hk. simpl in Hk. lia. Qed.

Lemma range_mounts_error ms out ps e :
  range_mounts ms out = (ps, Some e) →
  ps = []
  ∧ ((e = errors_New "unexpected mount type" ∧ forallb is_obj ms = false)
     ∨ (∃ o ps', JObj o ∈ ms ∧ parseSpecs o = (ps', Some e))).
Proof.
  revert out. induction ms as [|m ms IH]; intros out; simpl; [done|].
  destruct m as [| | | | |o]; try (intros [= <- <-]; by auto).
  destruct (parseSpecs o) as [paths [err|]] eqn:Hp.
  - intros [= <- <-]. split; [done|]. right. exists o, paths. split; [left|done].
  - intros H. apply IH in H as [-> [[-> Hall]|(o' & ps' & Hin & Hp')]];
      (split; [done|]).
    + by left.
    + right. exists o', ps'. split; [by right|done].
Qed.

Lemma range_mounts_fails ms out :
  (∃ m, m ∈ ms ∧ (is_obj m = false ∨ ∃ o, m = JObj o ∧ is_Some (parseSpecs o).2)) →
  is_Some (range_mounts ms out).2.
Proof.
  revert out. induction ms as [|m0 ms IH]; intros out (m & Hin & Hm).
  - by apply elem_of_nil in Hin.
  - simpl. destruct m0 as [| | | | |o0]; try by eexists.
    destruct (parseSpecs o0) as [paths [err|]] eqn:Hp; [by eexists|].
    apply IH. exists m. split; [|done].
    apply elem_of_cons in Hin as [->|Hin]; [|done].
    destruct Hm as [Hm|(o & [= ->] & Hsome)]; [done|].
    rewrite Hp in Hsome. by destruct Hsome.
Qed.

(** Every error of [parseSpecs] comes with no path and names the defect of
    a node of the document. *)
Lemma parse_error_is_defect spec ps e :
  parseSpecs spec = (ps, Some e) →
  ps = [] ∧ ∃ n msg, node_of spec n ∧ defect n = Some msg ∧ e = errors_New msg.
Proof.
  remember (obj_size spec) as k eqn:Hk. revert spec Hk ps e.
  induction k as [k IH] using lt_wf_ind. intros spec -> ps e.
  rewrite parseSpecs_eq. unfold parseSpecs_body.
  assert (∀ msg, defect spec = Some msg →
                 ([] : list string, Some (errors_New msg)) = (ps, Some e) →
                 ps = [] ∧ ∃ n msg, node_of spec n ∧ defect n = Some msg
                                     ∧ e = errors_New msg) as Hhere.
  { intros msg Hd [= <- <-]. split; [done|]. exists spec, msg. by repeat split; try constructor. }
  unfold defect in Hhere.
  destruct (index spec "type") as [[| | |t| |]|] eqn:Hty; try (by apply Hhere).
  destruct (String.eqb t "mount") eqn:Hmount.
  { apply String.eqb_eq in Hmount as ->.
    destruct (index spec "mounts") as [[| | | |ms|]|] eqn:Hms; try (by apply Hhere).
    intros Hr. apply range_mounts_error in Hr as [-> [[-> Hall]|(o & ps' & Hin & Hp)]].
    - rewrite Hall in Hhere. by apply (Hhere "unexpected mount type").
    - split; [done|].
      destruct (IH (obj_size o) (mounted_size _ _ _ _ Hms Hin) o eq_refl _ _ Hp)
        as (_ & n & msg & Hn & Hd & ->).
      exists n, msg. split; [|done]. by eapply node_mounted. }
  destruct (String.eqb t "measure") eqn:Hmeasure.
  { apply String.eqb_eq in Hmeasure as ->.
    destruct (index spec "child") as [[| | | | |o]|] eqn:Hch; try (by apply Hhere).
    intros Hp.
    destruct (IH (obj_size o) (child_size _ _ _ Hch) o eq_refl _ _ Hp)
      as (-> & n & msg & Hn & Hd & ->).
    split; [done|]. exists n, msg. split; [|done]. by eapply node_child. }
  destruct (String.eqb t "badgerds").
  { destruct (index spec "path") as [[| | |p| |]|]; try (by apply Hhere). done. }
  destruct (String.eqb t "flatfs" || String.eqb t "levelds"); [done|].
  by apply Hhere.
Qed.

Lemma forallb_false_elem (ms : list json) :
  forallb is_obj ms = false → ∃ m, m ∈ ms ∧ is_obj m = false.
Proof.
  induction ms as [|m ms IH]; simpl; [done|].
  destruct (is_obj m) eqn:Hm; simpl.
  - intros H. destruct (IH H) as (m' & Hin & Hm'). exists m'. split; [by right|done].
  - intros _. exists m. split; [by left|done].
Qed.

(** A document with a defective node is not resolved. *)
Lemma defective_node_fails root n msg :
  node_of root n → defect n = Some msg → is_Some (parseSpecs root).2.
Proof.
  induction 1 as [spec|spec ms mount n Hty Hms Hin Hn IH|spec child n Hty Hch Hn IH];
    intros Hd; rewrite parseSpecs_eq; unfold parseSpecs_body.
  - unfold defect in Hd.
    destruct (index spec "type") as [[| | |t| |]|]; try by eexists.
    destruct (String.eqb t "mount").
    { destruct (index spec "mounts") as [[| | | |ms|]|]; try by eexists.
      destruct (forallb is_obj ms) eqn:Hall; [done|].
      apply range_mounts_fails.
      apply forallb_false_elem in Hall as (m & Hin & Hm).
      exists m. by auto. }
    destruct (String.eqb t "measure").
    { destruct (index spec "child") as [[| | | | |o]|]; try done; by eexists. }
    destruct (String.eqb t "badgerds").
    { destruct (index spec "path") as [[| | |p| |]|]; try done; by eexists. }
    destruct (String.eqb t "flatfs" || String.eqb t "levelds"); [done|by eexists].
  - rewrite Hty, Hms. simpl String.eqb. cbv iota.
    apply range_mounts_fails. exists (JObj mount). split; [done|].
    right. exists mount. split; [done|]. by apply IH.
  - rewrite Hty, Hch. simpl String.eqb. cbv iota. by apply IH.
Qed.

(** C7: a document with a node whose ["type"] is no string or none of the
    five recognized values, or whose required field is missing or of the
    wrong type, is not resolved: [parseSpecs] returns no path, whatever the
    siblings gave, and a parse error whose text names the defect of a node
    of the document. *)
Theorem C7_parseSpecs_rejects root n msg :
  node_of root n → defect n = Some msg →
  ∃ n' msg', node_of root n' ∧ defect n' = Some msg'
             ∧ parseSpecs root = ([], Some (errors_New msg')).
Proof.
  intros Hn Hd.
  destruct (defective_node_fails root n msg Hn Hd) as [e He].
  destruct (parseSpecs root) as [ps err] eqn:Hp. simpl in He. subst err.
  destruct (parse_error_is_defect root ps e Hp) as (-> & n' & msg' & Hn' & Hd' & ->).
  by exists n', msg'.
Qed.

Lemma C7_parseSpecs_rejects_witness :
  ∃ n' msg', node_of Model.unknown_type_spec n' ∧ defect n' = Some msg'
             ∧ parseSpecs Model.unknown_type_spec = ([], Some (errors_New msg')).
Proof.
  apply (C7_parseSpecs_rejects Model.unknown_type_spec Model.unknown_type_node
           "unexpected ds type").
  - eapply node_mounted; [reflexivity | reflexivity | | apply node_self].
    apply list_elem_of_further, list_elem_of_here.
  - reflexivity.
Defined.

End ParseSpecs.

(** ** The calls that leave the program *)

Lemma next_fault_frame w :
  fs (next_fault w).2 = fs w ∧ cancelled (next_fault w).2 = cancelled w
  ∧ trace (next_fault w).2 = trace w ∧ names (next_fault w).2 = names w.
Proof. unfold next_fault. by destruct (faults w). Qed.

Lemma next_name_frame w :
  fs (next_name w).2 = fs w ∧ cancelled (next_name w).2 = cancelled w
  ∧ trace (next_name w).2 = trace w.
Proof. unfold next_name. by destruct (names w). Qed.

Lemma next_coin_frame w :
  fs (next_coin w).2 = fs w ∧ cancelled (next_coin w).2 = cancelled w
  ∧ trace (next_coin w).2 = trace w.
Proof. unfold next_coin. by destruct (coins w). Qed.

(** Rewriting with what is known of the worlds in between. *)
Ltac frame_rw :=
  repeat match goal with
         | E : fs ?w = _ |- context [fs ?w] => rewrite E
         | E : trace ?w = _ |- context [trace ?w] => rewrite E
         | E : cancelled ?w = _ |- context [cancelled ?w] => rewrite E
         end.

(** The case analysis of a call: the decision of the environment, then
    what the file system holds. *)
Ltac call_cases :=
  repeat match goal with
         | |- context [next_fault ?w] =>
             let f := fresh "f" in let w' := fresh "w" in let E := fresh "E" in
             pose proof (next_fault_frame w) as E;
             destruct (next_fault w) as [f w']; simpl in E;
             destruct E as (? & ? & ? & ?); simpl; frame_rw; destruct f; simpl
         | |- context [next_name ?w] =>
             let n := fresh "n" in let w' := fresh "w" in let E := fresh "E" in
             pose proof (next_name_frame w) as E;
             destruct (next_name w) as [n w']; simpl in E;
             destruct E as (? & ? & ?); simpl; frame_rw; simpl
         | |- context [next_coin ?w] =>
             let b := fresh "b" in let w' := fresh "w" in let E := fresh "E" in
             pose proof (next_coin_frame w) as E;
             destruct (next_coin w) as [b w']; simpl in E;
             destruct E as (? & ? & ?); simpl; frame_rw; destruct b; simpl
         | |- context [match fs ?w !! ?k with _ => _ end] =>
             let E := fresh "E" in destruct (fs w !! k) as [[]|] eqn:E; simpl
         | |- context [decide ?P] => destruct (decide P); simpl
         | |- context [is_dir ?d] => destruct (is_dir d); simpl
         end;
  frame_rw.

Section Calls.

Context `{GoLib}.

Lemma ReadFile_spec name w :
  let r := ioutil_ReadFile name w in
  fs r.2 = fs w ∧ cancelled r.2 = cancelled w
  ∧ trace r.2 = trace w ++ [EvReadFile name]
  ∧ (r.1.2 = None ∨ ∃ msg, r.1.2 = Some (OtherError msg)).
Proof. unfold ioutil_ReadFile. call_cases; naive_solver. Qed.

Lemma TempDir_spec dir prefix w :
  let r := ioutil_TempDir dir prefix w in
  cancelled r.2 = cancelled w
  ∧ trace r.2 = trace w ++ [EvTempDir dir prefix]
  ∧ ((r.1.2 = None ∧ fs w !! r.1.1 = None ∧ fs r.2 = <[r.1.1 := EmptyDir]> (fs w))
     ∨ (∃ msg, r.1.2 = Some (OtherError msg) ∧ fs r.2 = fs w)).
Proof. unfold ioutil_TempDir. call_cases; naive_solver. Qed.

Lemma Remove_spec name w :
  let r := os_Remove name w in
  cancelled r.2 = cancelled w
  ∧ trace r.2 = trace w ++ [EvRemove name]
  ∧ ((r.1 = None ∧ fs r.2 = delete name (fs w))
     ∨ (∃ msg, r.1 = Some (OtherError msg) ∧ fs r.2 = fs w)).
Proof. unfold os_Remove. call_cases; naive_solver. Qed.

Lemma Rename_spec oldpath newpath w :
  let r := os_Rename oldpath newpath w in
  cancelled r.2 = cancelled w
  ∧ trace r.2 = trace w ++ [EvRename oldpath newpath]
  ∧ ((r.1 = None
      ∧ ∃ d, fs w !! oldpath = Some d
             ∧ (fs r.2 = fs w ∧ oldpath = newpath
                ∨ fs r.2 = <[newpath := d]> (delete oldpath (fs w)) ∧ oldpath ≠ newpath))
     ∨ (∃ msg, r.1 = Some (OtherError msg) ∧ fs r.2 = fs w)).
Proof. unfold os_Rename. call_cases; naive_solver. Qed.

Lemma Open10_spec dir w :
  let r := badger10_Open dir w in
  cancelled r.2 = cancelled w
  ∧ trace r.2 = trace w ++ [EvOpen10 dir]
  ∧ ((r.1 = None
      ∧ ((∃ kvs, fs w !! dir = Some (Badger10 kvs) ∧ fs r.2 = fs w)
         ∨ (fs w !! dir = Some EmptyDir ∧ fs r.2 = <[dir := Badger10 ∅]> (fs w))))
     ∨ (∃ msg, r.1 = Some (OtherError msg) ∧ fs r.2 = fs w)).
Proof.
  unfold badger10_Open, manifest_error, invalid_dir_error.
  call_cases; naive_solver.
Qed.

Lemma NewKV08_spec dir w :
  let r := badger08_NewKV dir w in
  cancelled r.2 = cancelled w
  ∧ trace r.2 = trace w ++ [EvNewKV08 dir]
  ∧ ((r.1.2 = None
      ∧ ((fs w !! dir = Some (Badger08 r.1.1) ∧ fs r.2 = fs w)
         ∨ (fs w !! dir = Some EmptyDir ∧ r.1.1 = []
            ∧ fs r.2 = <[dir := Badger08 []]> (fs w))))
     ∨ (∃ msg, r.1.2 = Some (OtherError msg) ∧ fs r.2 = fs w)).
Proof.
  unfold badger08_NewKV, manifest_error, invalid_dir_error.
  call_cases; naive_solver.
Qed.

Lemma Set_spec dir pending k v w :
  let r := txn_Set dir pending k v w in
  fs r.2 = fs w ∧ cancelled r.2 = cancelled w
  ∧ trace r.2 = trace w ++ [EvSet dir k v]
  ∧ ((r.1.2 = None ∧ r.1.1 = <[k := v]> pending)
     ∨ (∃ msg, r.1.2 = Some (OtherError msg))).
Proof. unfold txn_Set. call_cases; naive_solver. Qed.

Lemma Commit_spec dir pending w :
  let r := txn_Commit dir pending w in
  cancelled r.2 = cancelled w
  ∧ trace r.2 = trace w ++ [EvCommit dir]
  ∧ ((r.1 = None ∧ ∃ kvs, fs w !! dir = Some (Badger10 kvs)
                           ∧ fs r.2 = <[dir := Badger10 (pending ∪ kvs)]> (fs w))
     ∨ (∃ msg, r.1 = Some (OtherError msg) ∧ fs r.2 = fs w)).
Proof.
  unfold txn_Commit, invalid_dir_error.
  call_cases; naive_solver.
Qed.

End Calls.

(** ** The version gate and the stores that are already upgraded *)

Section Sequential.

Context `{GoLib}.

(** C4: when the text of the version marker, trimmed, parses to a number
    other than the supported one, [Upgrade] fails with the world as it
    was: nothing in the file system has changed and the only call made is
    the read of the marker, so no temporary directory, no backup directory
    and no rename; when it parses to the supported number the version
    check passes. *)
Theorem C4_version_gate baseDir w vstr version w1 :
  ioutil_ReadFile (filepath_Join baseDir "version") (set_cancelled false w)
  = ((vstr, None), w1) →
  strconv_Atoi (strings_TrimSpace vstr) = (version, None) →
  (version ≠ SuppertedRepoVersion →
   Upgrade baseDir w = Some (Some (fmt_Errorf_version version), w1)
   ∧ fs w1 = fs w
   ∧ trace w1 = trace w ++ [EvReadFile (filepath_Join baseDir "version")])
  ∧ (version = SuppertedRepoVersion →
     checkRepoVersion {| path := baseDir |} (set_cancelled false w) = Some (None, w1)).
Proof.
  intros Hread Hparse.
  pose proof (ReadFile_spec (filepath_Join baseDir "version") (set_cancelled false w))
    as (Hfs & _ & Htrace & _).
  rewrite Hread in Hfs, Htrace. simpl in Hfs, Htrace.
  split; intros Hv.
  - split; [|done].
    unfold Upgrade, checkRepoVersion, bind, act, call, ret. simpl.
    rewrite Hread, Hparse. by rewrite bool_decide_true.
  - unfold checkRepoVersion, bind, call, ret. simpl.
    rewrite Hread, Hparse. by rewrite bool_decide_false by (by intros ?).
Qed.

(** C10: when the store at a path opens under badger 1.0, [upgradeDs]
    closes it and returns [nil]; the only calls are the open and the close
    (no temporary directory, no put, no commit, no rename), the file system
    is as it was but for the store badger 1.0 makes in an empty directory,
    and the loop of [Upgrade] goes on with the next path. *)
Theorem C10_already_upgraded c dir w w1 :
  badger10_Open dir w = (None, w1) →
  upgradeDs c dir w = Some (None, badger10_Close dir w1)
  ∧ trace (badger10_Close dir w1) = trace w ++ [EvOpen10 dir; EvClose10 dir]
  ∧ (fs (badger10_Close dir w1) = fs w
     ∨ fs w !! dir = Some EmptyDir
       ∧ fs (badger10_Close dir w1) = <[dir := Badger10 ∅]> (fs w))
  ∧ ∀ d paths,
      path_Join (path c) d = dir →
      range_paths c (d :: paths) w = range_paths c paths (badger10_Close dir w1).
Proof.
  intros Hopen.
  assert (upgradeDs c dir w = Some (None, badger10_Close dir w1)) as Hup.
  { unfold upgradeDs, try10, bind, call, act, ret. by rewrite Hopen. }
  pose proof (Open10_spec dir w) as (_ & Htrace & Hfs).
  rewrite Hopen in Htrace, Hfs. simpl in Htrace, Hfs.
  split; [done|]. split; [simpl; by rewrite Htrace, <- app_assoc|]. split.
  - simpl. destruct Hfs as [[_ [(kvs & _ & Hfs)|[Hd Hfs]]]|(msg & ? & _)]; auto; done.
  - intros d paths <-. simpl. unfold bind at 1. by rewrite Hup.
Qed.

End Sequential.

Lemma C4_version_gate_witness :
  @Upgrade (Model.lib []) "repo" Model.later_world
  = Some (Some (OtherError "unsupported fsrepo version: 7"),
          emit (EvReadFile "repo/version") Model.later_world).
Proof.
  refine (proj1 (proj1 (@C4_version_gate (Model.lib []) "repo" Model.later_world
                          "7" 7 (emit (EvReadFile "repo/version") Model.later_world)
                          _ _) _)).
  - reflexivity.
  - reflexivity.
  - discriminate.
Defined.

Lemma C10_already_upgraded_witness :
  @upgradeDs Model.scenario_lib {| path := "repo" |} "repo/a" Model.upgraded_world
  = Some (None, emit (EvClose10 "repo/a") (emit (EvOpen10 "repo/a") Model.upgraded_world)).
Proof.
  refine (proj1 (@C10_already_upgraded Model.scenario_lib {| path := "repo" |} "repo/a"
                   Model.upgraded_world (emit (EvOpen10 "repo/a") Model.upgraded_world) _)).
  reflexivity.
Defined.


(** ** The two goroutines *)

(** The outcomes of the call a step of [migrateData] makes. *)
Ltac call_spec :=
  let S := fresh "S" in
  match goal with
  | |- context [ioutil_TempDir ?d ?p ?w] =>
      pose proof (TempDir_spec d p w) as S;
      destruct (ioutil_TempDir d p w) as [[? ?] ?]; simpl in S;
      destruct S as (? & ? & [(-> & ? & ?)|(? & -> & ?)])
  | |- context [badger10_Open ?d ?w] =>
      pose proof (Open10_spec d w) as S;
      destruct (badger10_Open d w) as [? ?]; simpl in S;
      destruct S as (? & ? & [(-> & [(? & ? & ?)|(? & ?)])|(? & -> & ?)])
  | |- context [txn_Set ?d ?m ?k ?v ?w] =>
      pose proof (Set_spec d m k v w) as S;
      destruct (txn_Set d m k v w) as [[? ?] ?]; simpl in S;
      destruct S as (? & ? & ? & [(-> & ->)|(? & ->)])
  | |- context [txn_Commit ?d ?m ?w] =>
      pose proof (Commit_spec d m w) as S;
      destruct (txn_Commit d m w) as [? ?]; simpl in S;
      destruct S as (? & ? & [(-> & ? & ? & ?)|(? & -> & ?)])
  | |- context [os_Remove ?n ?w] =>
      pose proof (Remove_spec n w) as S;
      destruct (os_Remove n w) as [? ?]; simpl in S;
      destruct S as (? & ? & [(-> & ?)|(? & -> & ?)])
  | |- context [os_Rename ?a ?b ?w] =>
      pose proof (Rename_spec a b w) as S;
      destruct (os_Rename a b w) as [? ?]; simpl in S;
      destruct S as (? & ? & [(-> & ? & ? & [(? & ?)|(? & ?)])|(? & -> & ?)])
  end; simpl.

(** The cases of a step of the goroutine of [try08]. *)
Ltac producer_cases p k w :=
  unfold producer_step; simpl;
  destruct p as [[|[? ?] ?]|? ?|]; simpl;
  [ | call_cases | destruct k; simpl; destruct (cancelled w) eqn:?; simpl; call_cases | ].

(** The cases of a step of [migrateData]. *)
Ltac consumer_cases k cl :=
  unfold consumer_step; simpl;
  destruct k as [| | | | | | | | |[?|]]; simpl;
  [call_spec|call_spec|destruct cl|call_spec|call_spec|call_spec|call_spec
  |call_spec|call_spec| | ].

Section Machine.

Context `{GoLib} (c : Process) (dir : string).

Lemma steps_snoc sch t cf :
  steps c dir (sch ++ [t]) cf = step c dir t (steps c dir sch cf).
Proof. unfold steps. by rewrite fold_left_app. Qed.

(** What holds at the start and is kept by every step holds after any
    steps. *)
Lemma steps_invariant (P : Conf → Prop) cf :
  P cf → (∀ t cf, P cf → P (step c dir t cf)) → ∀ sch, P (steps c dir sch cf).
Proof.
  intros H0 Hstep sch. induction sch as [|t sch IH] using rev_ind; [done|].
  rewrite steps_snoc. by apply Hstep.
Qed.

Lemma run_steps sch cf cf' rest :
  run c dir sch cf = (cf', rest) →
  ∃ pre, sch = pre ++ rest ∧ cf' = steps c dir pre cf.
Proof.
  revert cf. induction sch as [|t sch IH]; intros cf; simpl.
  - destruct (cons cf); intros [= <- <-]; by exists [].
  - destruct (cons cf) eqn:Hc;
      try (intros Hr; apply IH in Hr as (pre & -> & ->); by exists (t :: pre)).
    intros [= <- <-]. by exists [].
Qed.

Lemma migrateData_steps items w r w' :
  migrateData c (PLoop items) dir w = Some (r, w') →
  ∃ pre rest, sched w = pre ++ rest
              ∧ cons (steps c dir pre (start items w)) = CReturn r
              ∧ w' = set_sched rest (world (steps c dir pre (start items w))).
Proof.
  unfold migrateData.
  destruct (run c dir (sched w) _) as [cf rest] eqn:Hrun.
  apply run_steps in Hrun as (pre & Hsched & ->).
  fold (start items w).
  destruct (cons (steps c dir pre (start items w))) eqn:Hc; try done.
  intros [= <- <-]. by exists pre, rest.
Qed.

Lemma err_inv_step t cf : err_inv cf → err_inv (step c dir t cf).
Proof.
  destruct cf as [p k cl w]. unfold err_inv. intros Hinv.
  destruct t; simpl.
  - producer_cases p k w; simpl in *; done.
  - consumer_cases k cl; simpl in *; naive_solver.
Qed.

Lemma puts_snoc l k v : puts (l ++ [(k, v)]) = <[k := v]> (puts l).
Proof. unfold puts. by rewrite foldl_snoc. Qed.

Lemma data_inv_step items t cf :
  data_inv items cf → data_inv items (step c dir t cf).
Proof.
  destruct cf as [p k cl w]. unfold data_inv. intros (sent & Hp & Hk).
  destruct t; simpl.
  - producer_cases p k w; simpl in *;
      try (exists sent; simpl; naive_solver);
      try (exists (sent ++ [(key kv, value kv)]); rewrite <- app_assoc; naive_solver).
    destruct Hp as [Hp ->]. rewrite app_nil_r in Hp. subst items.
    exists sent. destruct k; naive_solver.
  - consumer_cases k cl; simpl in *; try (exists sent; simpl; naive_solver).
    destruct Hk as (before & -> & -> & ->). exists (before ++ [(key entry, value entry)]).
    split; [done|]. rewrite puts_snoc, length_app. simpl. split; [done|lia].
Qed.

Lemma no_commit_ext w0 w w' tl :
  no_commit w0 w → trace w' = trace w ++ tl → (∀ d, EvCommit d ∉ tl) →
  no_commit w0 w'.
Proof.
  intros (tl0 & Htl & Hno) Htrace He. exists (tl0 ++ tl).
  rewrite Htrace, Htl, app_assoc. split; [done|].
  intros d [Hin|Hin]%elem_of_app; [by eapply Hno|by eapply He].
Qed.

Lemma no_record_same w0 w w' :
  no_record w0 w → fs w' = fs w → no_record w0 w'.
Proof. unfold no_record. intros Hno ->. done. Qed.

Lemma no_record_insert w0 w w' name d :
  no_record w0 w → fs w' = <[name := d]> (fs w) →
  (∀ kvs, d = Badger10 kvs → kvs = ∅) → no_record w0 w'.
Proof.
  unfold no_record. intros Hno -> Hd name' kvs.
  destruct (decide (name = name')) as [->|Hne].
  - rewrite lookup_insert_eq. intros [= ->]. left. by apply Hd.
  - rewrite lookup_insert_ne by done. apply Hno.
Qed.

(** A step of the goroutine of [try08] changes nothing in the file system
    or the context; it may close the old store, and hand a pair to a
    waiting [migrateData]. *)
Lemma producer_step_frame cf :
  let cf' := producer_step dir cf in
  fs (world cf') = fs (world cf)
  ∧ cancelled (world cf') = cancelled (world cf)
  ∧ (trace (world cf') = trace (world cf)
     ∨ trace (world cf') = trace (world cf) ++ [EvClose08 dir])
  ∧ (cons cf' = cons cf
     ∨ ∃ temp txn n kv, cons cf = CRange temp txn n ∧ cons cf' = CSet temp txn n kv).
Proof.
  destruct cf as [p k cl w].
  producer_cases p k w; simpl in *; frame_rw; naive_solver.
Qed.

(** The worlds after a call that is no commit keep [no_commit]. *)
Ltac no_commit_tac :=
  eapply no_commit_ext;
  [ eassumption
  | unfold cancel, badger10_Close; simpl; frame_rw; rewrite <- ?app_assoc;
    first [reflexivity | symmetry; apply app_nil_r]
  | intros ?; simpl; rewrite ?elem_of_cons, ?elem_of_nil; naive_solver ].

Ltac no_record_tac :=
  first [ eapply no_record_same; [eassumption | simpl; congruence]
        | eapply no_record_insert; [eassumption | simpl; eassumption | naive_solver] ].

Lemma cancel_inv_step w0 t cf :
  cancel_inv w0 cf → cancel_inv w0 (step c dir t cf).
Proof.
  destruct t; simpl.
  - pose proof (producer_step_frame cf) as (Hfs & Hc & Htrace & Hcons).
    simpl in *. unfold cancel_inv. rewrite Hc.
    assert (no_commit w0 (world cf) → no_commit w0 (world (producer_step dir cf))) as Hnc.
    { intros Hnc. destruct Htrace as [Htrace|Htrace]; no_commit_tac. }
    assert (no_record w0 (world cf) → no_record w0 (world (producer_step dir cf))) as Hnr.
    { intros Hnr. no_record_tac. }
    destruct Hcons as [->|(temp & txn & n & kv & -> & ->)]; [|naive_solver].
    destruct (cons cf) as [| | | | | | | | |[?|]]; naive_solver.
  - destruct cf as [p k cl w]. unfold cancel_inv.
    consumer_cases k cl; simpl in *; try done;
      intros Hinv; destruct_and?; try (intros ?);
      try congruence; repeat split;
      try congruence; try no_commit_tac; try no_record_tac.
Qed.

(** The context gets cancelled in a step of [migrateData] only, when its
    call to [ioutil.TempDir], to [badger10.Open] or to [txn.Set] fails, and
    the error returned is the error of that call. *)
Lemma cancel_step t cf :
  cancelled (world cf) = false →
  cancelled (world (step c dir t cf)) = true →
  t = Consumer
  ∧ ∃ e, cons (step c dir t cf) = CReturn (Some e)
         ∧ (cons cf = CTempDir
            ∧ (ioutil_TempDir (path c) "badger-" (world cf)).1.2 = Some e
            ∨ (∃ temp, cons cf = COpen temp
                       ∧ (badger10_Open temp (world cf)).1 = Some e)
            ∨ (∃ temp txn n entry,
                 cons cf = CSet temp txn n entry
                 ∧ (txn_Set temp txn (key entry) (value entry) (world cf)).1.2 = Some e)).
Proof.
  intros Hc0. destruct t; simpl.
  - pose proof (producer_step_frame cf) as (_ & Hc & _). simpl in Hc. congruence.
  - intros Hc. split; [done|]. revert Hc.
    destruct cf as [p k cl w]. simpl in *.
    unfold consumer_step; simpl.
    destruct k as [| | | | | | | | |[?|]]; simpl; try congruence.
    + destruct (ioutil_TempDir (path c) "badger-" w) as [[temp [e|]] w'] eqn:Hcall;
        simpl; [|pose proof (TempDir_spec (path c) "badger-" w) as (Hc' & _);
                 rewrite Hcall in Hc'; simpl in Hc'; congruence].
      intros _. exists e. split; [done|]. by left.
    + destruct (badger10_Open temp w) as [[e|] w'] eqn:Hcall;
        simpl; [|pose proof (Open10_spec temp w) as (Hc' & _);
                 rewrite Hcall in Hc'; simpl in Hc'; congruence].
      intros _. exists e. split; [done|]. right. left. exists temp. by rewrite Hcall.
    + destruct cl; simpl; congruence.
    + destruct (txn_Set temp txn (key entry) (value entry) w) as [[txn' [e|]] w'] eqn:Hcall;
        simpl; [|pose proof (Set_spec temp txn (key entry) (value entry) w) as (_ & Hc' & _);
                 rewrite Hcall in Hc'; simpl in Hc'; congruence].
      intros _. exists e. split; [done|]. right. right.
      exists temp, txn, n, entry. by rewrite Hcall.
    + pose proof (Commit_spec temp txn w) as (Hc' & _).
      destruct (txn_Commit temp txn w) as [[e|] w']; simpl in *; congruence.
    + pose proof (TempDir_spec (path c) "badger-backup-" w) as (Hc' & _).
      destruct (ioutil_TempDir (path c) "badger-backup-" w) as [[b [e|]] w'];
        simpl in *; congruence.
    + pose proof (Remove_spec backup w) as (Hc' & _).
      destruct (os_Remove backup w) as [[e|] w']; simpl in *; congruence.
    + pose proof (Rename_spec dir backup w) as (Hc' & _).
      destruct (os_Rename dir backup w) as [[e|] w']; simpl in *; congruence.
    + pose proof (Rename_spec temp dir w) as (Hc' & _).
      destruct (os_Rename temp dir w) as [[e|] w']; simpl in *; congruence.
Qed.

Lemma fs_inv_step d0 items t cf :
  data_inv items cf → fs_inv dir d0 items cf →
  fs_inv dir d0 items (step c dir t cf).
Proof.
  intros Hdata. destruct t; simpl.
  - pose proof (producer_step_frame cf) as (Hfs & _ & _ & Hcons).
    simpl in *. unfold fs_inv. rewrite Hfs.
    destruct Hcons as [->|(temp & txn & n & kv & -> & ->)]; done.
  - destruct cf as [p k cl w]. unfold fs_inv.
    destruct Hdata as (sent & Hp & Hk).
    consumer_cases k cl; simpl in *; try done;
      intros Hinv; destruct_and?; repeat split; frame_rw;
      try congruence; try (intros ->; congruence);
      try (simplify_map_eq; done).
    + assert (x = ∅) as -> by congruence.
      assert (sent = items) as ->.
      { subst cl. destruct p as [?|? ?|]; naive_solver. }
      rewrite lookup_insert_eq. subst txn. by rewrite (right_id_L ∅ (∪)).
    + exists backup. rewrite lookup_insert_ne by congruence.
      by rewrite lookup_delete_ne.
Qed.

End Machine.

(** ** Probing, migrating, cancelling *)

Section Claims.

Context `{GoLib} (c : Process) (dir : string).

Lemma err_inv_steps items w sch : err_inv (steps c dir sch (start items w)).
Proof.
  apply steps_invariant; [|intros; by apply err_inv_step].
  unfold err_inv, start. simpl. done.
Qed.

Lemma data_fs_inv_steps d0 items w sch :
  fs w !! dir = Some d0 →
  data_inv items (steps c dir sch (start items w))
  ∧ fs_inv dir d0 items (steps c dir sch (start items w)).
Proof.
  intros Hdir.
  apply (steps_invariant c dir (λ cf, data_inv items cf ∧ fs_inv dir d0 items cf)).
  - split; [|done]. exists []. simpl. done.
  - intros t cf [Hd Hf]. split; [by apply data_inv_step|by apply fs_inv_step].
Qed.

Lemma cancel_inv_steps items w sch :
  cancelled w = false → cancel_inv w (steps c dir sch (start items w)).
Proof.
  intros Hc. apply steps_invariant; [|intros; by apply cancel_inv_step].
  unfold cancel_inv, start. simpl. split; [done|]. split.
  - exists []. split; [by rewrite app_nil_r|]. intros d Hd. by apply elem_of_nil in Hd.
  - intros name kvs Hn. by right.
Qed.

(** The errors of [migrateData] are never [ErrInvalidVersion]. *)
Lemma migrateData_nil_or_not items w r w' :
  migrateData c (PLoop items) dir w = Some (r, w') →
  nil_or_not r ErrInvalidVersion = true.
Proof.
  intros (pre & rest & _ & Hr & _)%migrateData_steps.
  destruct r as [e|]; [|done].
  destruct (err_inv_steps items w pre e Hr) as [msg ->].
  done.
Qed.

(** [upgradeDs] by the results of the two opens. *)
Lemma upgradeDs_cases w :
  match badger10_Open dir w with
  | (None, w1) => upgradeDs c dir w = Some (None, badger10_Close dir w1)
  | (Some e10, w1) =>
      if strings_HasPrefix (Error e10) unsupported_version_prefix
      then
        match badger08_NewKV dir w1 with
        | ((items, None), w2) =>
            upgradeDs c dir w = migrateData c (PLoop items) dir w2
        | ((_, Some e08), w2) =>
            upgradeDs c dir w
            = Some (Some (if strings_HasPrefix (Error e08) unsupported_version_prefix
                          then ErrInvalidVersion else e08), w2)
        end
      else upgradeDs c dir w = Some (Some e10, w1)
  end.
Proof.
  unfold upgradeDs, try10, try08, bind, call, act, ret.
  pose proof (Open10_spec dir w) as (_ & _ & Hopen).
  destruct (badger10_Open dir w) as [[e10|] w1]; simpl in *; [|done].
  destruct Hopen as [[? _]|(msg & [= ->] & _)]; [done|].
  unfold classify. simpl.
  destruct (strings_HasPrefix msg unsupported_version_prefix); simpl; [|done].
  pose proof (NewKV08_spec dir w1) as (_ & _ & Hnew).
  destruct (badger08_NewKV dir w1) as [[items [e08|]] w2]; simpl in *.
  - destruct Hnew as [[? _]|(msg8 & [= ->] & _)]; [done|]. simpl.
    by destruct (strings_HasPrefix msg8 unsupported_version_prefix).
  - destruct (migrateData c (PLoop items) dir w2) as [[r w']|] eqn:Hm; [|done].
    by rewrite (migrateData_nil_or_not _ _ _ _ Hm).
Qed.

(** C5: the adapters are tried in a fixed order, badger 1.0 first and
    badger 0.8 after it.  When the open of one fails with the text of a
    refused manifest version the next one is tried; when it fails with
    another error [upgradeDs] returns this error at once, without trying
    the adapter that is left (the trace has the one open only); when both
    refuse the version the path fails with [ErrInvalidVersion]. *)
Theorem C5_probe_order w :
  match badger10_Open dir w with
  | (None, w1) => upgradeDs c dir w = Some (None, badger10_Close dir w1)
  | (Some e10, w1) =>
      trace w1 = trace w ++ [EvOpen10 dir]
      ∧ if strings_HasPrefix (Error e10) unsupported_version_prefix
        then
          match badger08_NewKV dir w1 with
          | ((items, None), w2) =>
              upgradeDs c dir w = migrateData c (PLoop items) dir w2
          | ((_, Some e08), w2) =>
              trace w2 = trace w ++ [EvOpen10 dir; EvNewKV08 dir]
              ∧ upgradeDs c dir w
                = Some (Some (if strings_HasPrefix (Error e08) unsupported_version_prefix
                              then ErrInvalidVersion else e08), w2)
          end
        else upgradeDs c dir w = Some (Some e10, w1)
  end.
Proof.
  pose proof (upgradeDs_cases w) as Hcases.
  pose proof (Open10_spec dir w) as (_ & Htrace & _).
  destruct (badger10_Open dir w) as [[e10|] w1]; simpl in *; [|done].
  split; [done|].
  destruct (strings_HasPrefix (Error e10) unsupported_version_prefix); [|done].
  pose proof (NewKV08_spec dir w1) as (_ & Htrace8 & _).
  destruct (badger08_NewKV dir w1) as [[items [e08|]] w2]; simpl in *; [|done].
  split; [|done]. by rewrite Htrace8, Htrace, <- app_assoc.
Qed.




(** C6: once the context is cancelled, at whatever point of the iteration
    of the old store, [migrateData] has returned an error, no commit was
    made, and every badger 1.0 store is empty or is a store that was there
    before, unchanged: the new store holds none of the pairs, or was not
    made at all. *)
Theorem C6_cancel_never_commits items w0 sch :
  cancelled w0 = false →
  cancelled (world (steps c dir sch (start items w0))) = true →
  (∃ e, cons (steps c dir sch (start items w0)) = CReturn (Some e))
  ∧ no_commit w0 (world (steps c dir sch (start items w0)))
  ∧ no_record w0 (world (steps c dir sch (start items w0))).
Proof.
  intros Hc0 Hc. pose proof (cancel_inv_steps items w0 sch Hc0) as Hinv.
  unfold cancel_inv in Hinv.
  destruct (cons (steps c dir sch (start items w0))) as [| | | | | | | | |[e|]];
    try (destruct Hinv; congruence); try congruence.
  split; [by exists e|]. by apply Hinv.
Qed.


(** C2, as the program has it: when the second rename fails after the
    first one succeeded, the old store is whole under the backup name and
    [migrateData] returns the error of that rename, as it is. *)
Theorem C2_second_rename_failure d0 items w0 sch e :
  fs w0 !! dir = Some d0 →
  second_rename_fails c dir (steps c dir sch (start items w0)) e →
  ∃ temp backup msg,
    cons (steps c dir sch (start items w0)) = CRenameNew temp backup
    ∧ (os_Rename temp dir (world (steps c dir sch (start items w0)))).1
      = Some (OtherError msg)
    ∧ e = OtherError msg
    ∧ fs (world (consumer_step c dir (steps c dir sch (start items w0)))) !! backup
      = Some d0.
Proof.
  intros Hdir [(temp & backup & Hk) Hfail].
  destruct (data_fs_inv_steps d0 items w0 sch Hdir) as [_ Hinv].
  unfold fs_inv in Hinv. rewrite Hk in Hinv.
  destruct (steps c dir sch (start items w0)) as [p k cl w]. simpl in *. subst k.
  unfold consumer_step in *. simpl in *.
  pose proof (Rename_spec temp dir w) as (_ & _ & Hren).
  destruct (os_Rename temp dir w) as [[e'|] w'] eqn:Hcall; simpl in *; [|done].
  injection Hfail as ->.
  destruct Hren as [[? _]|(msg & [= ->] & Hfs)]; [done|].
  exists temp, backup, msg. rewrite Hfs, Hcall. naive_solver.
Qed.

End Claims.

(** *** On the example repository *)

(** The scenario of the specification: the resolver returns the path [a],
    the store at [a] is migrated and its old content kept as a backup, the
    flatfs directory [b] is left as it is. *)
Example scenario_upgrade :
  let r := @Upgrade Model.scenario_lib "repo" Model.scenario_world in
  fst <$> r = Some None
  ∧ fs (Model.final_world r) !! "repo/a"
    = Some (Badger10 (list_to_map Model.scenario_items))
  ∧ fs (Model.final_world r) !! "repo/badger-backup-222"
    = Some (Badger08 Model.scenario_items)
  ∧ fs (Model.final_world r) !! "repo/b" = Some EmptyDir.
Proof. vm_compute. repeat split; reflexivity. Qed.


Lemma C6_cancel_never_commits_witness :
  let w0 := Model.migration_world (Model.fail_after 3 "transaction too big") in
  let cf := @steps Model.scenario_lib Model.repo "repo/a" (alternate 3)
              (start Model.scenario_items w0) in
  (∃ e, cons cf = CReturn (Some e)) ∧ no_commit w0 (world cf) ∧ no_record w0 (world cf).
Proof.
  apply (@C6_cancel_never_commits Model.scenario_lib Model.repo "repo/a"
           Model.scenario_items
           (Model.migration_world (Model.fail_after 3 "transaction too big"))
           (alternate 3)).
  - reflexivity.
  - vm_compute. reflexivity.
Defined.



(** A failed first rename and a failed second rename both return the
    error of [os.Rename], an error of the same kind: no kind of error is
    kept for the second rename. *)
Lemma C2_counterexample : ¬ ∃ k, @distinguished Model.scenario_lib k.
Proof.
  intros [k Hkind].
  destruct (Hkind Model.repo "repo/a" Model.scenario_items
              (Model.migration_world
                 (Model.fail_after 12 "rename repo/badger-111 repo/a: permission denied"))
              (alternate 12)
              (OtherError "rename repo/badger-111 repo/a: permission denied"))
    as [Hsecond _].
  destruct (Hkind Model.repo "repo/a" Model.scenario_items
              (Model.migration_world
                 (Model.fail_after 11 "rename repo/a repo/badger-backup-222: permission denied"))
              (alternate 11)
              (OtherError "rename repo/a repo/badger-backup-222: permission denied"))
    as [_ Hfirst].
  apply Hfirst.
  - assert (cons (@steps Model.scenario_lib Model.repo "repo/a" (alternate 11)
                    (start Model.scenario_items
                       (Model.migration_world
                          (Model.fail_after 11
                             "rename repo/a repo/badger-backup-222: permission denied"))))
            = CRenameOld "repo/badger-111" "repo/badger-backup-222") as Hk
        by (vm_compute; reflexivity).
    unfold other_call_fails. rewrite Hk. repeat split; try done;
      vm_compute; reflexivity.
  - rewrite <- Hsecond; [reflexivity|].
    split; [exists "repo/badger-111", "repo/badger-backup-222"|];
      vm_compute; reflexivity.
Qed.

Lemma C2_second_rename_failure_witness :
  let w0 := Model.migration_world (Model.fail_after 12 "permission denied") in
  let cf := @steps Model.scenario_lib Model.repo "repo/a" (alternate 12)
              (start Model.scenario_items w0) in
  ∃ temp backup msg,
    cons cf = CRenameNew temp backup
    ∧ (os_Rename temp "repo/a" (world cf)).1 = Some (OtherError msg)
    ∧ OtherError "permission denied" = OtherError msg
    ∧ fs (world (@consumer_step Model.scenario_lib Model.repo "repo/a" cf)) !! backup
      = Some (Badger08 Model.scenario_items).
Proof.
  apply (@C2_second_rename_failure Model.scenario_lib Model.repo "repo/a"
           (Badger08 Model.scenario_items) Model.scenario_items
           (Model.migration_world (Model.fail_after 12 "permission denied"))
           (alternate 12) (OtherError "permission denied")).
  - reflexivity.
  - split; [exists "repo/badger-111", "repo/badger-backup-222"|];
      vm_compute; reflexivity.
Defined.

(** ** What the producer hands over *)




(** ** A migration without faults returns *)




Section Liveness.

Context `{GoLib} (c : Process) (dir n1 n2 : string).



Lemma producer_step_returned cf e :
  cons cf = CReturn e → cons (producer_step dir cf) = CReturn e.
Proof.
  destruct (producer_step_frame dir cf) as (_ & _ & _ & [->|(? & ? & ? & ? & -> & _)]);
    done.
Qed.






End Liveness.


(** ** The old store during a migration *)

Section Safety.

Context `{GoLib} (c : Process) (dir : string).

Lemma TempDir_name d prefix w :
  let r := ioutil_TempDir d prefix w in
  r.1.2 = None → ∃ suffix, r.1.1 = filepath_Join d (prefix ++ suffix)%string.
Proof. unfold ioutil_TempDir. call_cases; naive_solver. Qed.

Lemma safe_inv_step d0 items t cf :
  fs_inv dir d0 items cf → safe_inv c dir d0 items cf →
  safe_inv c dir d0 items (step c dir t cf).
Proof.
  intros Hfs. destruct t; simpl.
  - pose proof (producer_step_frame dir cf) as (Hfs' & _ & _ & Hcons).
    simpl in *. unfold safe_inv, store_safe. rewrite Hfs'.
    destruct Hcons as [->|(temp & txn & n & kv & -> & ->)]; done.
  - destruct cf as [p k cl w]. unfold safe_inv, fs_inv in *. simpl in *.
    pose proof (TempDir_name (path c) "badger-" w) as Hn1.
    pose proof (TempDir_name (path c) "badger-backup-" w) as Hn2.
    consumer_cases k cl; simpl in *; try done;
      intros Hinv; destruct_and?; unfold store_safe, temp_name, backup_name, cancel,
        badger10_Close in *; simpl; frame_rw; eauto; try congruence.
    + assert (backup ≠ dir) by congruence.
      exists backup. split; [done|]. split; [done|].
      rewrite lookup_insert_ne by done. by rewrite lookup_delete_ne.
    + assert (backup ≠ dir) by congruence.
      right. exists backup. repeat split; try done.
      right. split; [done|]. by exists temp.
Qed.

Lemma backup_name_temp name : backup_name c name → temp_name c name.
Proof. intros [suffix ->]. by exists ("backup-" ++ suffix)%string. Qed.

Lemma framed_fresh f0 f name :
  framed c dir f0 f → is_Some (f !! dir) → f !! name = None → f0 !! name = None.
Proof.
  intros [Hold _] [d Hd] Hfree.
  destruct (f0 !! name) as [d'|] eqn:Hname; [|done].
  destruct (decide (name = dir)) as [->|Hne]; [congruence|].
  apply Hold in Hname; [congruence|done].
Qed.

Lemma framed_insert f0 f name d :
  framed c dir f0 f → f0 !! name = None → temp_name c name →
  framed c dir f0 (<[name := d]> f).
Proof.
  intros [Hold Hnew] Hfree Htemp. split.
  - intros name' d' Hne Hname'.
    rewrite lookup_insert_ne by congruence. by apply Hold.
  - intros name'. destruct (decide (name = name')) as [<-|Hne]; [by right|].
    rewrite lookup_insert_ne by done. apply Hnew.
Qed.

Lemma framed_delete f0 f name :
  framed c dir f0 f → f0 !! name = None → framed c dir f0 (delete name f).
Proof.
  intros [Hold Hnew] Hfree. split.
  - intros name' d' Hne Hname'.
    rewrite lookup_delete_ne by congruence. by apply Hold.
  - intros name'. destruct (decide (name = name')) as [<-|Hne].
    + rewrite lookup_delete_eq. by intros [? ?].
    + rewrite lookup_delete_ne by done. apply Hnew.
Qed.

(** The two renames: the path goes under a name that was free, and a name
    that was free goes to the path. *)
Lemma framed_rename_old f0 f name d :
  framed c dir f0 f → f0 !! name = None → temp_name c name →
  framed c dir f0 (<[name := d]> (delete dir f)).
Proof.
  intros [Hold Hnew] Hfree Htemp. split.
  - intros name' d' Hne Hname'.
    rewrite lookup_insert_ne by congruence.
    rewrite lookup_delete_ne by done. by apply Hold.
  - intros name'. destruct (decide (name = name')) as [<-|Hne]; [by right|].
    rewrite lookup_insert_ne by done.
    destruct (decide (dir = name')) as [<-|Hne'].
    + rewrite lookup_delete_eq. by intros [? ?].
    + rewrite lookup_delete_ne by done. apply Hnew.
Qed.

Lemma framed_rename_new f0 f name d :
  framed c dir f0 f → f0 !! name = None → is_Some (f0 !! dir) →
  framed c dir f0 (<[dir := d]> (delete name f)).
Proof.
  intros [Hold Hnew] Hfree Hdir. split.
  - intros name' d' Hne Hname'.
    rewrite lookup_insert_ne by done.
    rewrite lookup_delete_ne by congruence. by apply Hold.
  - intros name'. destruct (decide (dir = name')) as [<-|Hne]; [by left|].
    rewrite lookup_insert_ne by done.
    destruct (decide (name = name')) as [<-|Hne'].
    + rewrite lookup_delete_eq. by intros [? ?].
    + rewrite lookup_delete_ne by done. apply Hnew.
Qed.

Lemma frame_inv_step d0 items w0 t cf :
  is_Some (fs w0 !! dir) →
  fs_inv dir d0 items cf → safe_inv c dir d0 items cf →
  frame_inv c dir w0 cf → frame_inv c dir w0 (step c dir t cf).
Proof.
  intros Hdir Hfs Hsafe. destruct t; simpl.
  - pose proof (producer_step_frame dir cf) as (Hfs' & _ & _ & Hcons).
    simpl in *. unfold frame_inv. rewrite Hfs'.
    destruct Hcons as [->|(temp & txn & n & kv & -> & ->)]; done.
  - destruct cf as [p k cl w]. unfold frame_inv, safe_inv, fs_inv in *. simpl in *.
    pose proof (TempDir_name (path c) "badger-" w) as Hn1.
    pose proof (TempDir_name (path c) "badger-backup-" w) as Hn2.
    consumer_cases k cl; simpl in *; try done;
      intros (Hfr & Hk); destruct_and?;
      unfold cancel, badger10_Close in *; simpl; frame_rw;
      try (split_and!; by eauto).
    + assert (fs w0 !! s = None) by (eapply framed_fresh; eauto).
      split; [|done]. apply framed_insert; [done..|]. by apply Hn1.
    + split; [|done]. by apply framed_insert.
    + split; [|done]. by apply framed_insert.
    + assert (fs w0 !! s = None) by (eapply framed_fresh; eauto).
      split; [|done]. apply framed_insert; [done..|].
      apply backup_name_temp. by apply Hn2.
    + split; [|done]. by apply framed_delete.
    + split; [|done]. apply framed_rename_old; [done..|].
      by apply backup_name_temp.
    + split; [|done]. by apply framed_rename_new.
Qed.

Lemma done_inv_step t cf : done_inv cf → done_inv (step c dir t cf).
Proof.
  destruct cf as [p k cl w]. unfold done_inv. simpl. intros [Hcl Hk].
  destruct t; simpl.
  - producer_cases p k w;
      repeat match goal with e : option error |- _ => destruct e end;
      simpl in *; frame_rw; try done;
      try (destruct k as [| | | | | | | | |[?|]]; simpl in *); naive_solver.
  - consumer_cases k cl; simpl in *; unfold cancel, badger10_Close; simpl;
      frame_rw; naive_solver.
Qed.

Lemma leftover_inv_step d0 items temp t cf :
  fs_inv dir d0 items cf →
  leftover_inv temp cf → leftover_inv temp (step c dir t cf).
Proof.
  intros Hfs. destruct t; simpl.
  - pose proof (producer_step_frame dir cf) as (Hfs' & _ & _ & Hcons).
    simpl in *. unfold leftover_inv. rewrite Hfs'.
    destruct Hcons as [->|(temp' & txn & n & kv & -> & ->)]; done.
  - destruct cf as [p k cl w]. unfold leftover_inv, fs_inv in *. simpl in *.
    consumer_cases k cl; simpl in *; try done;
      intros Hinv; destruct_and?; subst;
      unfold cancel, badger10_Close in *; simpl; frame_rw;
      try done; try (split; [done|]);
      try (by rewrite lookup_insert_eq);
      try (rewrite lookup_insert_ne by congruence; try rewrite lookup_delete_ne by congruence; done);
      try (rewrite lookup_delete_ne by congruence; done).
Qed.

(** All of it, after any steps of a migration that starts with [d0] at
    the path. *)
Lemma migration_inv_steps d0 items w sch :
  fs w !! dir = Some d0 →
  let cf := steps c dir sch (start items w) in
  data_inv items cf ∧ fs_inv dir d0 items cf ∧ safe_inv c dir d0 items cf
  ∧ frame_inv c dir w cf ∧ done_inv cf.
Proof.
  intros Hdir.
  apply (steps_invariant c dir
           (λ cf, data_inv items cf ∧ fs_inv dir d0 items cf
                  ∧ safe_inv c dir d0 items cf ∧ frame_inv c dir w cf ∧ done_inv cf)).
  - split_and!; try done.
    + exists []. simpl. done.
    + unfold frame_inv, framed. simpl. split; [|done]. split; [done|]. by left.
  - intros t cf (Hd & Hf & Hs & Hfr & Hdn). split_and!.
    + by apply data_inv_step.
    + by apply fs_inv_step.
    + by apply safe_inv_step.
    + eapply frame_inv_step; eauto.
    + by apply done_inv_step.
Qed.







Lemma steps_app sch1 sch2 cf :
  steps c dir (sch1 ++ sch2) cf = steps c dir sch2 (steps c dir sch1 cf).
Proof. unfold steps. by rewrite fold_left_app. Qed.

(** X13: [migrateData] never removes the temporary directory it made: when it
    returns an error after [ioutil.TempDir] gave it [temp], the directory
    [temp] is still in the repository root. *)
Theorem failed_migration_leaves_temp d0 items w sch1 sch2 temp e :
  fs w !! dir = Some d0 →
  cons (steps c dir sch1 (start items w)) = COpen temp →
  cons (steps c dir (sch1 ++ sch2) (start items w)) = CReturn (Some e) →
  is_Some (fs (world (steps c dir (sch1 ++ sch2) (start items w))) !! temp).
Proof.
  intros Hdir Hopen Hret. rewrite steps_app in *.
  destruct (migration_inv_steps d0 items w sch1 Hdir) as (Hd1 & Hfs1 & _).
  assert (data_inv items (steps c dir sch2 (steps c dir sch1 (start items w)))
          ∧ fs_inv dir d0 items (steps c dir sch2 (steps c dir sch1 (start items w)))
          ∧ leftover_inv temp (steps c dir sch2 (steps c dir sch1 (start items w))))
    as (_ & _ & Hleft).
  { apply (steps_invariant c dir
             (λ cf, data_inv items cf ∧ fs_inv dir d0 items cf ∧ leftover_inv temp cf)).
    - split_and!; try done. unfold leftover_inv, fs_inv in *.
      rewrite Hopen in *. destruct Hfs1 as (_ & _ & ->). split; [done|by eexists].
    - intros t cf (Hd & Hf & Hl). split_and!.
      + by apply data_inv_step.
      + by apply fs_inv_step.
      + by eapply leftover_inv_step. }
  unfold leftover_inv in Hleft. by rewrite Hret in Hleft.
Qed.

End Safety.




(** The scenario's migration in which the first put fails. *)
Lemma failed_migration_leaves_temp_witness :
  is_Some (fs (world (Cases.after (Cases.failing 3)
                        ([Consumer] ++ [Producer; Consumer; Producer; Consumer])))
           !! "repo/badger-111").
Proof.
  apply (@failed_migration_leaves_temp Model.scenario_lib Model.repo "repo/a"
           (Badger08 Model.scenario_items) Model.scenario_items (Cases.failing 3)
           [Consumer] [Producer; Consumer; Producer; Consumer] "repo/badger-111"
           (OtherError "input/output error")).
  - reflexivity.
  - vm_compute. reflexivity.
  - vm_compute. reflexivity.
Defined.

(** ** The end of the goroutine *)

Section Goroutine.

Context `{GoLib} (c : Process) (dir : string).

Lemma done_inv_steps items w sch : done_inv (steps c dir sch (start items w)).
Proof.
  apply steps_invariant; [|intros; by apply done_inv_step].
  unfold done_inv, start. simpl. done.
Qed.

(** Once [migrateData] has returned, its place does not change. *)
Lemma returned_step t cf r : cons cf = CReturn r → cons (step c dir t cf) = CReturn r.
Proof.
  intros Hr. destruct t; simpl.
  - by apply producer_step_returned.
  - unfold consumer_step. by rewrite Hr.
Qed.

Lemma returned_steps sch cf r :
  cons cf = CReturn r → cons (steps c dir sch cf) = CReturn r.
Proof.
  intros Hr. apply (steps_invariant c dir (λ cf, cons cf = CReturn r)); [done|].
  intros t cf' Hr'. by apply returned_step.
Qed.



(** *** A read of the old store that fails *)

(** The goroutine has returned and has not closed its channel. *)
Lemma gone_step t cf :
  prod cf = PReturned ∧ closed cf = false →
  prod (step c dir t cf) = PReturned ∧ closed (step c dir t cf) = false.
Proof.
  destruct cf as [p k cl w]. simpl. intros [-> ->].
  destruct t; simpl; [done|].
  consumer_cases k false; simpl; done.
Qed.

Lemma gone_steps sch cf :
  prod cf = PReturned ∧ closed cf = false →
  prod (steps c dir sch cf) = PReturned ∧ closed (steps c dir sch cf) = false.
Proof.
  intros Hg.
  apply (steps_invariant c dir (λ cf, prod cf = PReturned ∧ closed cf = false));
    [done|]. intros t cf'. apply gone_step.
Qed.

(** [migrateData] waits for the next pair, and none will come. *)
Lemma stuck_steps sch cf temp txn n :
  prod cf = PReturned → closed cf = false → cons cf = CRange temp txn n →
  steps c dir sch cf = cf.
Proof.
  intros Hp Hcl Hk.
  apply (steps_invariant c dir (λ cf', cf' = cf)); [done|].
  intros t cf' ->. destruct t; simpl.
  - unfold producer_step. by rewrite Hp.
  - unfold consumer_step. by rewrite Hk, Hcl.
Qed.

(** A schedule at the end of which [migrateData] has not returned is run
    to its end. *)
Lemma run_not_returned sch cf :
  (∀ r, cons (steps c dir sch cf) ≠ CReturn r) →
  run c dir sch cf = (steps c dir sch cf, []).
Proof.
  revert cf. induction sch as [|t sch IH]; intros cf Hnot; simpl in *.
  - by destruct (cons cf).
  - destruct (cons cf) eqn:Hk; try (by apply IH).
    destruct (Hnot err).
    apply (returned_steps sch (step c dir t cf)). by apply returned_step.
Qed.

(** The step in which the read of a value fails. *)
Lemma value_error_step cf k v rest msg fl :
  prod cf = PLoop ((k, v) :: rest) → faults (world cf) = Some msg :: fl →
  prod (producer_step dir cf) = PReturned
  ∧ closed (producer_step dir cf) = closed cf
  ∧ cons (producer_step dir cf) = cons cf.
Proof.
  destruct cf as [p k' cl w]. simpl. intros -> Hf.
  unfold producer_step, next_fault. simpl. by rewrite Hf.
Qed.

(** X16: when [item.Value] fails for a pair (an error that is not
    [ErrCancelled]), the goroutine returns without closing its channel and
    without cancelling the context.  From then on [migrateData] cannot
    return [nil], whatever the schedule: no part of the pairs is taken for
    the whole store.  And when [migrateData] was waiting for the next pair
    at that moment it waits for ever: [upgradeDs] does not return. *)
Theorem value_error_blocks items w sch1 sch2 k v rest msg fl :
  prod (steps c dir sch1 (start items w)) = PLoop ((k, v) :: rest) →
  faults (world (steps c dir sch1 (start items w))) = Some msg :: fl →
  sched w = sch1 ++ Producer :: sch2 →
  (∀ w', migrateData c (PLoop items) dir w ≠ Some (None, w'))
  ∧ (∀ temp txn n,
       cons (steps c dir sch1 (start items w)) = CRange temp txn n →
       migrateData c (PLoop items) dir w = None).
Proof.
  intros Hp Hf Hsched.
  destruct (value_error_step _ k v rest msg fl Hp Hf) as (Hp' & Hcl' & Hk').
  assert (closed (steps c dir sch1 (start items w)) = false) as Hcl.
  { assert (data_inv items (steps c dir sch1 (start items w))) as (sent & Hd & _).
    { apply steps_invariant; [|intros; by apply data_inv_step].
      exists []. simpl. done. }
    rewrite Hp in Hd. by destruct Hd. }
  split.
  - intros w' Hm.
    apply migrateData_steps in Hm as (pre & post & Hpre & Hr & _).
    pose proof (done_inv_steps items w pre) as [Hdone Hk]. rewrite Hr in Hk.
    rewrite Hsched in Hpre.
    apply app_eq_inv in Hpre as [(l & -> & _)|(l & -> & Hl)].
    + specialize (Hdone Hk).
      rewrite (steps_app c dir pre l) in Hp.
      pose proof (returned_steps l _ None Hr) as Hr'.
      pose proof (done_inv_steps items w (pre ++ l)) as [Hdone' Hk'2].
      rewrite (steps_app c dir pre l) in Hdone', Hk'2. rewrite Hr' in Hk'2.
      specialize (Hdone' Hk'2). congruence.
    + destruct l as [|t l].
      * rewrite app_nil_r in *. specialize (Hdone Hk). congruence.
      * injection Hl as <- _.
        rewrite (steps_app c dir sch1 (Producer :: l)) in Hk. simpl in Hk.
        destruct (gone_steps l (producer_step dir (steps c dir sch1 (start items w))))
          as [_ Hcl2]; [split; congruence|].
        unfold steps in *. congruence.
  - intros temp txn n Hk.
    unfold migrateData. rewrite Hsched. fold (start items w).
    rewrite run_not_returned.
    + rewrite (steps_app c dir sch1 (Producer :: sch2)). simpl.
      fold (steps c dir sch2 (producer_step dir (steps c dir sch1 (start items w)))).
      rewrite (stuck_steps sch2 _ temp txn n); [|done|congruence..].
      by rewrite Hk', Hk.
    + intros r. rewrite (steps_app c dir sch1 (Producer :: sch2)). simpl.
      fold (steps c dir sch2 (producer_step dir (steps c dir sch1 (start items w)))).
      rewrite (stuck_steps sch2 _ temp txn n); [|done|congruence..].
      by rewrite Hk', Hk.
Qed.

(** *** Every migration returns, or its channel is abandoned *)

(** A step of [migrateData] brings it nearer to its return, whatever its
    call gives, unless it has returned or waits for a pair. *)
Lemma consumer_step_rank cf :
  prod (consumer_step c dir cf) = prod cf
  ∧ closed (consumer_step c dir cf) = closed cf
  ∧ (consumer_rank (cons (consumer_step c dir cf)) < consumer_rank (cons cf)
     ∨ consumer_step c dir cf = cf
       ∧ ((∃ r, cons cf = CReturn r) ∨ receiving (cons cf) = true ∧ closed cf = false)).
Proof.
  destruct cf as [p k cl w]. simpl.
  destruct k as [|t|t txn n|t txn n entry|t txn|t|t b|t b|t b|r];
    unfold consumer_step; simpl.
  - destruct (ioutil_TempDir _ _ w) as [[? [?|]] ?]; simpl; split_and!; try done; left; lia.
  - destruct (badger10_Open _ w) as [[?|] ?]; simpl; split_and!; try done; left; lia.
  - destruct cl; simpl; split_and!; try done; [left; lia|right; by auto].
  - destruct (txn_Set _ _ _ _ w) as [[? [?|]] ?]; simpl; split_and!; try done; left; lia.
  - destruct (txn_Commit _ _ w) as [[?|] ?]; simpl; split_and!; try done; left; lia.
  - destruct (ioutil_TempDir _ _ w) as [[? [?|]] ?]; simpl; split_and!; try done; left; lia.
  - destruct (os_Remove _ w) as [[?|] ?]; simpl; split_and!; try done; left; lia.
  - destruct (os_Rename _ _ w) as [[?|] ?]; simpl; split_and!; try done; left; lia.
  - destruct (os_Rename _ _ w) as [[?|] ?]; simpl; split_and!; try done; left; lia.
  - split_and!; try done. right. split; [done|]. left. by eexists.
Qed.

(** A step of the goroutine does not take the two away from their end, and
    brings them nearer when [migrateData] waits for a pair, unless the
    goroutine has returned. *)
Lemma producer_step_rank cf :
  (rank (producer_step dir cf) ≤ rank cf)%nat
  ∧ (receiving (cons cf) = true → prod cf ≠ PReturned →
     rank (producer_step dir cf) < rank cf).
Proof.
  destruct cf as [p k cl w]. unfold rank, producer_step. simpl.
  destruct p as [[|[k0 v0] rest]|kv rest|]; simpl.
  - split; [lia|intros; lia].
  - destruct (next_fault w) as [[?|] ?]; simpl; split; try lia; intros; lia.
  - destruct k as [|t|t txn n|t txn n entry|t txn|t|t b|t b|t b|r]; simpl;
      destruct (cancelled w); simpl; try destruct (next_coin w) as [[|] ?]; simpl;
      split; try lia; try done; intros; lia.
  - split; [lia|done].
Qed.

Lemma abandoned_step t cf : abandoned cf → step c dir t cf = cf.
Proof.
  destruct cf as [p k cl w]. unfold abandoned. simpl. intros (-> & -> & Hk).
  destruct k; try done. by destruct t.
Qed.

(** A step of [migrateData], then one of the goroutine. *)
Lemma round_rank cf :
  rank (producer_step dir (consumer_step c dir cf)) < rank cf
  ∨ (∃ r, cons (producer_step dir (consumer_step c dir cf)) = CReturn r)
  ∨ abandoned (producer_step dir (consumer_step c dir cf)).
Proof.
  destruct (consumer_step_rank cf) as (Hp & Hcl & Hk).
  destruct (producer_step_rank (consumer_step c dir cf)) as [Hle Hlt].
  destruct Hk as [Hk|[Heq [[r Hr]|[Hrecv Hclosed]]]].
  - left. unfold rank in *. rewrite Hp in Hle. lia.
  - right. left. exists r. rewrite Heq. by apply producer_step_returned.
  - rewrite Heq in *. destruct (prod cf) eqn:Hprod.
    + left. by apply Hlt.
    + left. by apply Hlt.
    + right. right.
      assert (abandoned cf) as Hab by done.
      pose proof (abandoned_step Producer cf Hab) as Hstay. simpl in Hstay.
      by rewrite Hstay.
Qed.

Lemma steps_alternate (n : nat) cf :
  (rank cf ≤ n)%nat ∨ (∃ r, cons cf = CReturn r) ∨ abandoned cf →
  (∃ r, cons (steps c dir (alternate n) cf) = CReturn r)
  ∨ abandoned (steps c dir (alternate n) cf).
Proof.
  revert cf. induction n as [|n IH]; intros cf Hcf.
  - simpl. destruct Hcf as [Hrank|[?|?]]; [|by left|by right].
    left. unfold rank in Hrank. destruct (cons cf) eqn:Hk; simpl in Hrank; try lia.
    by eexists.
  - simpl. apply IH. destruct Hcf as [Hrank|[[r Hr]|Hab]].
    + destruct (round_rank cf) as [?|[?|?]]; [left; lia|by right; left|by right; right].
    + right. left. exists r.
      apply (returned_step Producer). by apply (returned_step Consumer).
    + right. right.
      pose proof (abandoned_step Consumer cf Hab) as Hc. simpl in Hc. rewrite Hc.
      pose proof (abandoned_step Producer cf Hab) as Hp. simpl in Hp. by rewrite Hp.
Qed.

(** A schedule at the end of which [migrateData] has returned lets
    [migrateData] return. *)
Lemma run_returned sch cf r :
  cons (steps c dir sch cf) = CReturn r →
  ∃ r', cons (run c dir sch cf).1 = CReturn r'.
Proof.
  revert cf. induction sch as [|t sch IH]; intros cf Hr; simpl in *.
  - exists r. by rewrite Hr.
  - destruct (cons cf) eqn:Hk; try (by apply IH). simpl. by eexists.
Qed.

(** X17: when the two goroutines take their steps in turn, three rounds for
    each pair and ten more, [migrateData] returns, with [nil] or with an
    error, whatever calls fail.  One case is left: the goroutine has
    returned without closing its channel, and [migrateData] waits for a
    pair for ever. *)
Theorem migrateData_returns_or_abandoned items w (n : nat) :
  sched w = alternate n →
  (3 * length items + 10 ≤ n)%nat →
  (∃ r w', migrateData c (PLoop items) dir w = Some (r, w'))
  ∨ (migrateData c (PLoop items) dir w = None
     ∧ abandoned (steps c dir (alternate n) (start items w))).
Proof.
  intros Hsched Hn. unfold migrateData. rewrite Hsched. fold (start items w).
  destruct (steps_alternate n (start items w)) as [[r Hr]|Hab].
  { left. unfold rank, start. simpl. lia. }
  - left. apply run_returned in Hr as [r' Hr'].
    destruct (run c dir (alternate n) (start items w)) as [cf rest]. simpl in Hr'.
    rewrite Hr'. by eexists _, _.
  - right. split; [|done].
    rewrite run_not_returned.
    + destruct Hab as (_ & _ & Hk).
      by destruct (cons (steps c dir (alternate n) (start items w))).
    + intros r Hr. destruct Hab as (_ & _ & Hk). by rewrite Hr in Hk.
Qed.

End Goroutine.


(** The scenario's migration in which the read of the first value fails
    once [migrateData] waits for it. *)
Lemma value_error_blocks_witness :
  @migrateData Model.scenario_lib Model.repo (PLoop Model.scenario_items) "repo/a"
    Cases.read_error_world
  = None.
Proof.
  refine (proj2 (@value_error_blocks Model.scenario_lib Model.repo "repo/a"
                   Model.scenario_items Cases.read_error_world
                   [Consumer; Consumer] (alternate 5)
                   "k1" "v1" [("k2", "v2"); ("k3", "v3")] "input/output error" []
                   _ _ _)
            "repo/badger-111" ∅ 0 _); vm_compute; reflexivity.
Defined.

(** The scenario's migration in which the read of the second value
    fails. *)
Lemma migrateData_returns_or_abandoned_witness :
  (∃ r w', @migrateData Model.scenario_lib Model.repo (PLoop Model.scenario_items)
             "repo/a" (Cases.failing 4) = Some (r, w'))
  ∨ (@migrateData Model.scenario_lib Model.repo (PLoop Model.scenario_items)
       "repo/a" (Cases.failing 4) = None
     ∧ abandoned (Cases.after (Cases.failing 4) (alternate 20))).
Proof.
  apply (@migrateData_returns_or_abandoned Model.scenario_lib Model.repo "repo/a"
           Model.scenario_items (Cases.failing 4) 20).
  - reflexivity.
  - vm_compute. lia.
Defined.

(** ** The run of [Upgrade] *)

Section Loop.

Context `{GoLib}.

Lemma checkRepoVersion_frame p w r w1 :
  checkRepoVersion p w = Some (r, w1) →
  fs w1 = fs w ∧ cancelled w1 = cancelled w
  ∧ trace w1 = trace w ++ [EvReadFile (filepath_Join (path p) "version")]
  ∧ (∀ e, r = Some e → ∃ msg, e = OtherError msg).
Proof.
  unfold checkRepoVersion, bind, call, ret.
  pose proof (ReadFile_spec (filepath_Join (path p) "version") w)
    as (Hfs & Hc & Htrace & Herr).
  destruct (ioutil_ReadFile _ w) as [[vstr [e|]] w']; simpl in *.
  - intros [= <- <-]. split_and!; try done. intros ? [= <-].
    destruct Herr as [?|[msg [= ->]]]; [done|by eexists].
  - destruct (strconv_Atoi (strings_TrimSpace vstr)) as [version [msg|]].
    + intros [= <- <-]. split_and!; try done. intros ? [= <-]. by eexists.
    + destruct (bool_decide (version ≠ SuppertedRepoVersion));
        intros [= <- <-]; split_and!; try done.
      intros ? [= <-]. by eexists.
Qed.

Lemma loadSpecs_frame p w paths r w1 :
  loadSpecs p w = Some ((paths, r), w1) →
  fs w1 = fs w ∧ cancelled w1 = cancelled w
  ∧ trace w1 = trace w ++ [EvReadFile (path_Join (path p) SpecsFile)]
  ∧ (∀ e, r = Some e → paths = [] ∧ ∃ msg, e = OtherError msg).
Proof.
  unfold loadSpecs, bind, call, ret.
  pose proof (ReadFile_spec (path_Join (path p) SpecsFile) w)
    as (Hfs & Hc & Htrace & Herr).
  destruct (ioutil_ReadFile _ w) as [[specData [e|]] w']; simpl in *.
  - intros [= <- <- <-]. split_and!; try done. intros ? [= <-]. split; [done|].
    destruct Herr as [?|[msg [= ->]]]; [done|by eexists].
  - destruct (json_Unmarshal specData) as [spec [msg|]].
    + intros [= <- <- <-]. split_and!; try done. intros ? [= <-]. split; [done|by eexists].
    + intros [= Hparse <-]. split_and!; try done. intros e ->.
      apply parse_error_is_defect in Hparse as (-> & n & msg & _ & _ & ->).
      split; [done|]. by eexists.
Qed.

(** X1: when the version marker cannot be read, or its text, trimmed, is no
    number, [Upgrade] returns the error of [ioutil.ReadFile] or of
    [strconv.Atoi] as it is; it has made one call, the read of the marker:
    the spec is not read, no store is opened, and the file system is as it
    was. *)
Theorem Upgrade_marker_unusable baseDir w vstr r e w1 :
  ioutil_ReadFile (filepath_Join baseDir "version") (set_cancelled false w)
  = ((vstr, r), w1) →
  r = Some e
  ∨ r = None ∧ (∃ version msg, strconv_Atoi (strings_TrimSpace vstr) = (version, Some msg)
                               ∧ e = OtherError msg) →
  Upgrade baseDir w = Some (Some e, w1)
  ∧ fs w1 = fs w
  ∧ trace w1 = trace w ++ [EvReadFile (filepath_Join baseDir "version")].
Proof.
  intros Hread Hcase.
  pose proof (ReadFile_spec (filepath_Join baseDir "version") (set_cancelled false w))
    as (Hfs & _ & Htrace & _).
  rewrite Hread in Hfs, Htrace. simpl in Hfs, Htrace.
  split; [|done].
  unfold Upgrade, checkRepoVersion, bind, act, call, ret. simpl. rewrite Hread.
  destruct Hcase as [->|(-> & version & msg & -> & ->)]; done.
Qed.

(** X2: when the version is the supported one and [loadSpecs] fails (the spec
    file cannot be read, is no JSON, or [parseSpecs] refuses it),
    [Upgrade] returns that error; it has read the two files and done
    nothing else: no store is opened, and no path is kept of the spec. *)
Theorem Upgrade_spec_unusable baseDir w w1 paths e w2 :
  checkRepoVersion {| path := baseDir |} (set_cancelled false w) = Some (None, w1) →
  loadSpecs {| path := baseDir |} w1 = Some ((paths, Some e), w2) →
  Upgrade baseDir w = Some (Some e, w2)
  ∧ paths = []
  ∧ fs w2 = fs w
  ∧ trace w2 = trace w ++ [EvReadFile (filepath_Join baseDir "version");
                           EvReadFile (path_Join baseDir SpecsFile)].
Proof.
  intros Hcheck Hload.
  pose proof (checkRepoVersion_frame _ _ _ _ Hcheck) as (Hfs1 & _ & Htrace1 & _).
  pose proof (loadSpecs_frame _ _ _ _ _ Hload) as (Hfs2 & _ & Htrace2 & Herr).
  destruct (Herr e eq_refl) as [-> _]. simpl in *.
  split_and!; try done.
  - unfold Upgrade, bind, act. simpl. by rewrite Hcheck, Hload.
  - congruence.
  - by rewrite Htrace2, Htrace1, <- app_assoc.
Qed.

(** X3: the loop of [Upgrade] over two lists of paths, one after the other: the
    second list is gone through in the world the first one leaves, and only
    when every path of the first list returned [nil]; an error of the first
    list, or a migration of it that does not return, ends the loop, and no
    store of the second list is opened. *)
Theorem range_paths_app p paths1 paths2 w :
  range_paths p (paths1 ++ paths2) w
  = match range_paths p paths1 w with
    | Some (None, w1) => range_paths p paths2 w1
    | other => other
    end.
Proof.
  revert w. induction paths1 as [|d paths1 IH]; intros w; simpl; [done|].
  unfold bind.
  destruct (upgradeDs p (path_Join (path p) d) w) as [[[e|] w1]|]; [done|apply IH|done].
Qed.






(** *** What the loop leaves alone *)



(** *** A second run *)







(** *** The errors of [Upgrade] *)

Lemma upgradeDs_error p dir w e w' :
  upgradeDs p dir w = Some (Some e, w') →
  e = ErrInvalidVersion ∨ ∃ msg, e = OtherError msg.
Proof.
  intros Hup. pose proof (upgradeDs_cases p dir w) as Hcases.
  pose proof (Open10_spec dir w) as (_ & _ & Hopen).
  destruct (badger10_Open dir w) as [[e10|] w1]; simpl in *; [|congruence].
  destruct Hopen as [[? _]|(msg & [= ->] & _)]; [done|]. simpl in Hcases.
  destruct (strings_HasPrefix msg unsupported_version_prefix).
  - pose proof (NewKV08_spec dir w1) as (_ & _ & Hnew).
    destruct (badger08_NewKV dir w1) as [[items [e08|]] w2]; simpl in *.
    + destruct Hnew as [[? _]|(msg8 & [= ->] & _)]; [done|]. simpl in Hcases.
      rewrite Hcases in Hup. injection Hup as <- _.
      destruct (strings_HasPrefix msg8 unsupported_version_prefix); [by left|].
      right. by eexists.
    + rewrite Hcases in Hup.
      apply migrateData_steps in Hup as (pre & rest & _ & Hr & _).
      right. by apply (err_inv_steps p dir items w2 pre).
  - rewrite Hcases in Hup. injection Hup as <- _. right. by eexists.
Qed.

(** X6: every error [Upgrade] returns is [ErrInvalidVersion] or an error made
    outside the package (by the operating system, the standard library,
    badger, [errors.New] or [fmt.Errorf]): [ErrCancelled] never reaches
    the caller, whatever the stores, the schedule and the calls that
    fail. *)
Theorem Upgrade_never_cancelled baseDir w e w' :
  Upgrade baseDir w = Some (Some e, w') →
  (e = ErrInvalidVersion ∨ ∃ msg, e = OtherError msg) ∧ e ≠ ErrCancelled.
Proof.
  intros Hup.
  assert (e = ErrInvalidVersion ∨ ∃ msg, e = OtherError msg) as He;
    [|split; [done|]; by destruct He as [->|[msg ->]]].
  revert Hup. unfold Upgrade, bind at 1 2 3, act. simpl.
  destruct (checkRepoVersion _ _) as [[[e1|] w1]|] eqn:Hcheck; try done.
  { intros [= <- <-]. right.
    by apply (checkRepoVersion_frame _ _ _ _ Hcheck). }
  destruct (loadSpecs _ w1) as [[[paths [e2|]] w2]|] eqn:Hload; try done.
  { intros [= <- <-]. right.
    by apply (loadSpecs_frame _ _ _ _ _ Hload). }
  clear Hcheck Hload. revert w2.
  induction paths as [|d paths IH]; intros w2; simpl; [done|].
  unfold bind at 1.
  destruct (upgradeDs _ _ w2) as [[[e3|] w3]|] eqn:Hds; try done.
  - intros [= <- <-]. by eapply upgradeDs_error.
  - apply IH.
Qed.

(** X8: [upgradeDs] returns [ErrInvalidVersion] only when both badgers refused
    the manifest of the path; it has then made the two opens and nothing
    else: no migration was started, the file system is as it was and the
    context is not cancelled. *)
Theorem upgradeDs_invalid_version p dir w w' :
  upgradeDs p dir w = Some (Some ErrInvalidVersion, w') →
  fs w' = fs w ∧ cancelled w' = cancelled w
  ∧ trace w' = trace w ++ [EvOpen10 dir; EvNewKV08 dir]
  ∧ ∃ e10 e08 w1,
      badger10_Open dir w = (Some e10, w1)
      ∧ strings_HasPrefix (Error e10) unsupported_version_prefix = true
      ∧ badger08_NewKV dir w1 = (([], Some e08), w')
      ∧ strings_HasPrefix (Error e08) unsupported_version_prefix = true.
Proof.
  intros Hup. pose proof (upgradeDs_cases p dir w) as Hcases.
  pose proof (Open10_spec dir w) as (Hc1 & Ht1 & Hopen).
  destruct (badger10_Open dir w) as [[e10|] w1]; simpl in *; [|congruence].
  destruct Hopen as [[? _]|(msg & [= ->] & Hfs1)]; [done|]. simpl in Hcases.
  destruct (strings_HasPrefix msg unsupported_version_prefix) eqn:Hp10;
    [|congruence].
  pose proof (NewKV08_spec dir w1) as (Hc2 & Ht2 & Hnew).
  destruct (badger08_NewKV dir w1) as [[items [e08|]] w2] eqn:Hkv; simpl in *.
  - destruct Hnew as [[? _]|(msg8 & [= ->] & Hfs2)]; [done|]. simpl in Hcases.
    rewrite Hcases in Hup.
    destruct (strings_HasPrefix msg8 unsupported_version_prefix) eqn:Hp08;
      [|congruence].
    injection Hup as <-. split_and!; try congruence.
    + by rewrite Ht2, Ht1, <- app_assoc.
    + exists (OtherError msg), (OtherError msg8), w1. split_and!; try done.
      revert Hkv. unfold badger08_NewKV, manifest_error, invalid_dir_error.
      call_cases; congruence.
  - rewrite Hcases in Hup.
    apply migrateData_nil_or_not in Hup. done.
Qed.

End Loop.

Lemma Upgrade_marker_unusable_witness :
  let w1 := emit (EvReadFile "repo/version") Cases.garbled_world in
  @Upgrade (Model.lib []) "repo" Cases.garbled_world
  = Some (Some (OtherError (Model.syntax_error "six")), w1)
  ∧ fs w1 = fs Cases.garbled_world
  ∧ trace w1 = trace Cases.garbled_world ++ [EvReadFile "repo/version"].
Proof.
  refine (@Upgrade_marker_unusable (Model.lib []) "repo" Cases.garbled_world
            "six" None (OtherError (Model.syntax_error "six"))
            (emit (EvReadFile "repo/version") Cases.garbled_world) _ _).
  - reflexivity.
  - right. split; [reflexivity|]. exists 0%Z, (Model.syntax_error "six").
    split; reflexivity.
Defined.

Lemma Upgrade_spec_unusable_witness :
  let w1 := emit (EvReadFile "repo/version") (set_cancelled false Cases.nospec_world) in
  let w2 := emit (EvReadFile "repo/datastore_spec") w1 in
  @Upgrade Model.scenario_lib "repo" Cases.nospec_world
  = Some (Some (OtherError "invalid character looking for beginning of value"), w2)
  ∧ (@nil string) = []
  ∧ fs w2 = fs Cases.nospec_world
  ∧ trace w2 = trace Cases.nospec_world
               ++ [EvReadFile "repo/version"; EvReadFile "repo/datastore_spec"].
Proof.
  refine (@Upgrade_spec_unusable Model.scenario_lib "repo" Cases.nospec_world
            (emit (EvReadFile "repo/version") (set_cancelled false Cases.nospec_world))
            [] (OtherError "invalid character looking for beginning of value")
            (emit (EvReadFile "repo/datastore_spec")
               (emit (EvReadFile "repo/version") (set_cancelled false Cases.nospec_world)))
            _ _).
  - vm_compute. reflexivity.
  - vm_compute. reflexivity.
Defined.



Lemma Upgrade_never_cancelled_witness :
  (OtherError "unsupported fsrepo version: 7" = ErrInvalidVersion
   ∨ ∃ msg, OtherError "unsupported fsrepo version: 7" = OtherError msg)
  ∧ OtherError "unsupported fsrepo version: 7" ≠ ErrCancelled.
Proof.
  apply (@Upgrade_never_cancelled (Model.lib []) "repo" Model.later_world
           (OtherError "unsupported fsrepo version: 7")
           (emit (EvReadFile "repo/version") Model.later_world)).
  reflexivity.
Defined.

Lemma upgradeDs_invalid_version_witness :
  let w' := emit (EvNewKV08 "repo/a") (emit (EvOpen10 "repo/a") Cases.other_world) in
  fs w' = fs Cases.other_world ∧ cancelled w' = cancelled Cases.other_world
  ∧ trace w' = trace Cases.other_world ++ [EvOpen10 "repo/a"; EvNewKV08 "repo/a"]
  ∧ ∃ e10 e08 w1,
      badger10_Open "repo/a" Cases.other_world = (Some e10, w1)
      ∧ strings_HasPrefix (Error e10) unsupported_version_prefix = true
      ∧ badger08_NewKV "repo/a" w1 = (([], Some e08), w')
      ∧ strings_HasPrefix (Error e08) unsupported_version_prefix = true.
Proof.
  apply (@upgradeDs_invalid_version Model.scenario_lib Model.repo "repo/a"
           Cases.other_world).
  vm_compute. reflexivity.
Defined.


(** ** Mounts, one list after the other *)

Lemma range_mounts_out ms out :
  range_mounts ms out
  = match range_mounts ms [] with
    | (paths, None) => (out ++ paths, None)
    | (_, Some e) => ([], Some e)
    end.
Proof.
  revert out. induction ms as [|m ms IH]; intros out; simpl.
  - by rewrite app_nil_r.
  - destruct m as [| | | | |mount]; try done.
    destruct (parseSpecs mount) as [paths [e|]]; [done|]. simpl.
    rewrite (IH (out ++ paths)), (IH paths).
    destruct (range_mounts ms []) as [paths' [e|]]; [done|].
    by rewrite app_assoc.
Qed.

Lemma range_mounts_app ms1 ms2 out :
  range_mounts (ms1 ++ ms2) out
  = match range_mounts ms1 out with
    | (out1, None) => range_mounts ms2 out1
    | (_, Some e) => ([], Some e)
    end.
Proof.
  revert out. induction ms1 as [|m ms1 IH]; intros out; simpl; [done|].
  destruct m as [| | | | |mount]; try done.
  destruct (parseSpecs mount) as [paths [e|]]; [done|]. apply IH.
Qed.

(** X18: a ["mount"] node whose array is the array of a first node followed by
    the array of a second one gives the paths of the first, then the paths
    of the second.  When the first fails its error is the result, and when
    only the second fails, its error: of two nodes that are refused, the
    one that comes first in the arrays is the one reported, and no path is
    returned with an error. *)
Theorem parseSpecs_mounts_app spec spec1 spec2 ms1 ms2 :
  index spec "type" = Some (JStr "mount") →
  index spec "mounts" = Some (JArr (ms1 ++ ms2)) →
  index spec1 "type" = Some (JStr "mount") →
  index spec1 "mounts" = Some (JArr ms1) →
  index spec2 "type" = Some (JStr "mount") →
  index spec2 "mounts" = Some (JArr ms2) →
  parseSpecs spec
  = match parseSpecs spec1, parseSpecs spec2 with
    | (paths1, None), (paths2, None) => (paths1 ++ paths2, None)
    | (_, Some e), _ => ([], Some e)
    | (_, None), (_, Some e) => ([], Some e)
    end.
Proof.
  intros Ht Hm Ht1 Hm1 Ht2 Hm2.
  rewrite !parseSpecs_eq. unfold parseSpecs_body.
  rewrite Ht, Hm, Ht1, Hm1, Ht2, Hm2. simpl.
  rewrite range_mounts_app.
  destruct (range_mounts ms1 []) as [paths1 [e|]]; [done|].
  rewrite range_mounts_out.
  by destruct (range_mounts ms2 []) as [paths2 [e|]].
Qed.

Lemma parseSpecs_mounts_app_witness :
  parseSpecs (Cases.mount ([Cases.leaf "badgerds" "a"; Cases.leaf "flatfs" "b"]
                           ++ [Cases.leaf "s3ds" "c"; Cases.leaf "badgerds" "d"]))
  = ([], Some (errors_New "unexpected ds type")).
Proof.
  apply (parseSpecs_mounts_app
           (Cases.mount ([Cases.leaf "badgerds" "a"; Cases.leaf "flatfs" "b"]
                         ++ [Cases.leaf "s3ds" "c"; Cases.leaf "badgerds" "d"]))
           (Cases.mount [Cases.leaf "badgerds" "a"; Cases.leaf "flatfs" "b"])
           (Cases.mount [Cases.leaf "s3ds" "c"; Cases.leaf "badgerds" "d"])
           [Cases.leaf "badgerds" "a"; Cases.leaf "flatfs" "b"]
           [Cases.leaf "s3ds" "c"; Cases.leaf "badgerds" "d"]); reflexivity.
Defined.

(** ** The puts, in order *)

Section Order.

Context `{GoLib} (c : Process) (dir : string).







End Order.
